(** * Outline extraction from positioned PDF text: [Challenge_1a/process_pdfs.py]

    A shallow embedding of the heading pipeline of [process_pdfs.py] and the
    properties its specification states about it.

    Modelling conventions.
    - A Python [float] is a binary64 number: Rocq's primitive [float], with
      the same rounding and the same comparisons.  The set and the
      dictionary of sizes compare their keys with [==], as CPython does for
      keys that are not NaN (a NaN key is found by object identity, which
      is outside this model).  A sort is determined by [<] only when no
      NaN is compared: the statements that rest on a sort assume that the
      sizes and coordinates involved are not NaN, and say so.
    - A Python [str] is a [string] whose characters are the code points
      below 256.  On that range [str.strip], [str.lower], [\s], [\d] and
      [re.IGNORECASE] are the tables written out below.
    - A Python [int] is a [Z].
    - An exception is a value [Raise e] of the [result] type.
    - The iteration order of a CPython [set] is unspecified: it is a
      parameter [set_iter] of every function that iterates one. *)

From Stdlib Require Import Bool List ZArith NArith Lia Ascii String Floats Permutation Sorted.
Import ListNotations.

Set Warnings "-inexact-float".
Local Open Scope string_scope.
Local Open Scope list_scope.

(* ================================================================== *)
(** * Exceptions *)

Inductive exn : Type :=
| TypeError
| IndexError
| AttributeError.

Inductive result (A : Type) : Type :=
| Ok (a : A)
| Raise (e : exn).

Arguments Ok {A} a.
Arguments Raise {A} e.

Definition bind {A B : Type} (m : result A) (k : A -> result B) : result B :=
  match m with
  | Ok a => k a
  | Raise e => Raise e
  end.

Notation "x <- m ;; k" := (bind m (fun x => k))
  (at level 61, m at next level, right associativity).

(* ================================================================== *)
(** * Python strings *)

Definition code (c : ascii) : N := N_of_ascii c.

(** [str.isspace] on one character, which is also the class [\s]. *)
Definition is_space (c : ascii) : bool :=
  let n := code c in
  ((9 <=? n) && (n <=? 13) || (28 <=? n) && (n <=? 32)
   || (n =? 133) || (n =? 160))%N.

(** The class [\d], and the class [[0-9]]: below 256 they coincide. *)
Definition is_digit (c : ascii) : bool :=
  let n := code c in ((48 <=? n) && (n <=? 57))%N.

(** [str.lower] on one character. *)
Definition lower_char (c : ascii) : ascii :=
  let n := code c in
  if ((65 <=? n) && (n <=? 90))%N then ascii_of_N (n + 32)
  else if ((192 <=? n) && (n <=? 222) && negb (n =? 215))%N
       then ascii_of_N (n + 32)
       else c.

Fixpoint lower (s : string) : string :=
  match s with
  | EmptyString => EmptyString
  | String c s' => String (lower_char c) (lower s')
  end.

(** Removal of the leading, respectively trailing, characters of a class. *)
Fixpoint lstrip_by (p : ascii -> bool) (s : string) : string :=
  match s with
  | EmptyString => EmptyString
  | String c s' => if p c then lstrip_by p s' else s
  end.

Fixpoint rstrip_by (p : ascii -> bool) (s : string) : string :=
  match s with
  | EmptyString => EmptyString
  | String c s' =>
      match rstrip_by p s' with
      | EmptyString => if p c then EmptyString else String c EmptyString
      | r => String c r
      end
  end.

(** [s.strip()] *)
Definition strip (s : string) : string := rstrip_by is_space (lstrip_by is_space s).

(** [sub in s] *)
Fixpoint contains (sub s : string) : bool :=
  if prefix sub s then true
  else match s with
       | EmptyString => false
       | String _ s' => contains sub s'
       end.

(** [sep.join(ls)] is [String.concat sep ls]. *)
Definition join (sep : string) (ls : list string) : string := concat sep ls.

(* ================================================================== *)
(** * Regular expressions, as far as the patterns of the program go *)

Inductive regex : Type :=
| Void
| Eps
| Cls (p : ascii -> bool)
| Cat (r1 r2 : regex)
| Alt (r1 r2 : regex)
| Star (r : regex).

Fixpoint nullable (r : regex) : bool :=
  match r with
  | Void => false
  | Eps => true
  | Cls _ => false
  | Cat r1 r2 => nullable r1 && nullable r2
  | Alt r1 r2 => nullable r1 || nullable r2
  | Star _ => true
  end.

Fixpoint deriv (c : ascii) (r : regex) : regex :=
  match r with
  | Void => Void
  | Eps => Void
  | Cls p => if p c then Eps else Void
  | Cat r1 r2 =>
      if nullable r1 then Alt (Cat (deriv c r1) r2) (deriv c r2)
      else Cat (deriv c r1) r2
  | Alt r1 r2 => Alt (deriv c r1) (deriv c r2)
  | Star r1 => Cat (deriv c r1) (Star r1)
  end.

Fixpoint accepts (r : regex) (s : string) : bool :=
  match s with
  | EmptyString => nullable r
  | String c s' => accepts (deriv c r) s'
  end.

Definition Plus (r : regex) : regex := Cat r (Star r).
Definition Opt (r : regex) : regex := Alt r Eps.
Definition any_char : regex := Cls (fun _ => true).

(** One pattern character: under [re.IGNORECASE] it matches the characters
    that lower to the same character, otherwise itself only. *)
Definition chr (ignorecase : bool) (c : ascii) : regex :=
  Cls (fun a => if ignorecase then Ascii.eqb (lower_char a) (lower_char c)
                else Ascii.eqb a c).

Fixpoint lit (ignorecase : bool) (s : string) : regex :=
  match s with
  | EmptyString => Eps
  | String c s' => Cat (chr ignorecase c) (lit ignorecase s')
  end.

(** A pattern with its anchors: [^] when [bol], [$] when [eol]. *)
Record pattern : Type := mkPattern {
  bol : bool;
  body : regex;
  eol : bool
}.

(** [$] without [re.MULTILINE]: the end of the string, or the position
    before a newline that ends the string. *)
Definition at_end : regex := Opt (Cls (fun a => Ascii.eqb a "010"%char)).

(** [bool(re.search(pat, s))]: some substring matches, where it may start
    and end is decided by the anchors. *)
Definition re_search (pat : pattern) (s : string) : bool :=
  accepts (Cat (if bol pat then Eps else Star any_char)
               (Cat (body pat)
                    (if eol pat then at_end else Star any_char))) s.

(** [bool(re.fullmatch(r, s))] *)
Definition re_fullmatch (r : regex) (s : string) : bool := accepts r s.

(* ================================================================== *)
(** * The text helpers of [process_pdfs.py] *)

(** The list [generic_patterns], all matched with [re.IGNORECASE]:
    [^Microsoft Word], [^Document[0-9]*$], [^Untitled], [\.docx?$],
    [\.pdf$]. *)
Definition generic_patterns : list pattern :=
  [ mkPattern true (lit true "Microsoft Word") false;
    mkPattern true (Cat (lit true "Document") (Star (Cls is_digit))) true;
    mkPattern true (lit true "Untitled") false;
    mkPattern false (Cat (lit true ".doc") (Opt (chr true "x"))) true;
    mkPattern false (lit true ".pdf") true ].

(** [is_generic_title]: [not title] holds of [None] and of the empty
    string. *)
Definition is_generic_title (title : option string) : bool :=
  match title with
  | None => true
  | Some EmptyString => true
  | Some t => existsb (fun pat => re_search pat t) generic_patterns
  end.

(** [re.sub(r"\s+", " ", text)]: every maximal run of white space becomes
    one space.  The flag says that the previous character was white. *)
Fixpoint collapse_from (in_run : bool) (s : string) : string :=
  match s with
  | EmptyString => EmptyString
  | String c s' =>
      if is_space c
      then if in_run then collapse_from true s'
           else String " " (collapse_from true s')
      else String c (collapse_from false s')
  end.

Definition collapse_spaces (s : string) : string := collapse_from false s.

(** The class [[\s\-:]]. *)
Definition is_trailer (c : ascii) : bool :=
  is_space c || Ascii.eqb c "-" || Ascii.eqb c ":".

(** [clean_heading_text].  After the second step the text holds no
    newline, so [[\s\-:]+$] matches exactly the longest run of the class
    that reaches the end of the text. *)
Definition clean_heading_text (text : string) : string :=
  let text := strip text in
  let text := collapse_spaces text in
  rstrip_by is_trailer text.

Definition table_headers : list string := ["s.no"; "name"; "age"; "relationship"].

Definition str_in (s : string) (l : list string) : bool :=
  existsb (String.eqb s) l.

(** [is_table_header] *)
Definition is_table_header (text : string) : bool :=
  str_in (lower text) table_headers.

(** [is_number_only]: [re.fullmatch(r"\d+\.?", text.strip())] *)
Definition is_number_only (text : string) : bool :=
  re_fullmatch (Cat (Plus (Cls is_digit)) (Opt (chr false "."))) (strip text).

(* ================================================================== *)
(** * Sorting and tuples *)

Section Sorting.
Context {A : Type} (lt : A -> A -> bool).

(** [l.sort(reverse=True)] and [sorted(l, reverse=True)]: a descending
    sort that uses [<] only and keeps equal elements in their original
    order.  An element is placed before the first one that is not
    greater than it. *)
Fixpoint insert_desc (x : A) (l : list A) : list A :=
  match l with
  | [] => [x]
  | y :: l' => if lt x y then y :: insert_desc x l' else x :: l
  end.

Fixpoint sort_desc (l : list A) : list A :=
  match l with
  | [] => []
  | x :: l' => insert_desc x (sort_desc l')
  end.
End Sorting.

(** [a != b] on floats *)
Definition float_neq (a b : float) : bool := negb (PrimFloat.eqb a b).

(** [<] on the triples [(size, -y, text)]: the first components that
    differ decide. *)
Definition triple_lt (a b : float * float * string) : bool :=
  let '(s1, n1, t1) := a in
  let '(s2, n2, t2) := b in
  if float_neq s1 s2 then PrimFloat.ltb s1 s2
  else if float_neq n1 n2 then PrimFloat.ltb n1 n2
  else String.ltb t1 t2.

(** [set(l)] of floats, listed by first occurrence: equal numbers (also
    [0.0] and [-0.0]) are one element, the one inserted first. *)
Fixpoint set_of (l : list float) : list float :=
  match l with
  | [] => []
  | x :: l' => x :: filter (fun y => float_neq y x) (set_of l')
  end.

(** [enumerate(l, start)] *)
Fixpoint enumerate {A : Type} (start : Z) (l : list A) : list (Z * A) :=
  match l with
  | [] => []
  | x :: l' => (start, x) :: enumerate (start + 1) l'
  end.

(* ================================================================== *)
(** * The data of the program *)

(** What PyMuPDF's [page.get_text("dict")] gives: blocks of lines of
    spans.  A block without the key ["lines"] (an image) has no lines. *)
Record Span : Type := mkSpan {
  span_text : string;
  span_font : string;
  span_size : float;
  span_bbox : float * float * float * float
}.

Record TextLine : Type := mkTextLine { spans : list Span }.
Record Block : Type := mkBlock { lines : list TextLine }.
Record Page : Type := mkPage { blocks : list Block }.

Record PdfDoc : Type := mkPdfDoc {
  metadata_title : option string;
  pages : list Page
}.

(** [span["bbox"][1]] *)
Definition bbox_top (s : Span) : float :=
  let '(_, y0, _, _) := span_bbox s in y0.

(** The dictionaries of [raw_lines] and of [merged]. *)
Record Line : Type := mkLine {
  page : Z;
  text : string;
  size : float;
  is_bold : bool;
  y : float
}.

(** One entry of the outline. *)
Record Heading : Type := mkHeading {
  h_level : string;
  h_text : string;
  h_page : Z
}.

Record Outline : Type := mkOutline {
  title : string;
  outline : list Heading
}.

(** All spans of a page, in the order of the three nested loops. *)
Definition page_spans (p : Page) : list Span :=
  flat_map (fun b => flat_map spans (lines b)) (blocks p).

(* ================================================================== *)
(** * [merge_multiline_headings] *)

(** The condition of the [if]: [line] against [last]. *)
Definition close_to (line last : Line) : bool :=
  Z.eqb (page line) (page last)
  && PrimFloat.ltb (PrimFloat.abs (size line - size last)) 0.1
  && PrimFloat.ltb (PrimFloat.abs (y line - y last)) 25.

(** The dictionary made of a buffer whose first element is [b0]. *)
Definition flush (b0 : Line) (buffer : list Line) : Line :=
  {| page := page b0;
     size := size b0;
     is_bold := existsb is_bold buffer;
     y := y b0;
     text := join " " (map text buffer) |}.

Record merge_state : Type := mkMergeState {
  merged : list Line;
  buffer : list Line;
  last : option Line
}.

(** One turn of the [for] loop. *)
Definition merge_step (st : merge_state) (line : Line) : result merge_state :=
  match buffer st with
  | [] => Ok (mkMergeState (merged st) [line] (Some line))
  | b0 :: _ =>
      match last st with
      | None => Raise TypeError
      | Some l =>
          if close_to line l
          then Ok (mkMergeState (merged st) (buffer st ++ [line]) (Some line))
          else Ok (mkMergeState (merged st ++ [flush b0 (buffer st)])
                                [line] (Some line))
      end
  end.

Fixpoint merge_loop (st : merge_state) (ls : list Line) : result merge_state :=
  match ls with
  | [] => Ok st
  | line :: ls' => st' <- merge_step st line ;; merge_loop st' ls'
  end.

Definition merge_multiline_headings (ls : list Line) : result (list Line) :=
  match ls with
  | [] => Ok []
  | _ =>
      st <- merge_loop (mkMergeState [] [] None) ls ;;
      match buffer st with
      | [] => Ok (merged st)
      | b0 :: _ => Ok (merged st ++ [flush b0 (buffer st)])
      end
  end.

(* ================================================================== *)
(** * [get_document_title] *)

(** The list [candidates] of the first page. *)
Definition title_candidates (first_page : Page) : list (float * float * string) :=
  flat_map (fun span =>
              let text := clean_heading_text (span_text span) in
              if (3 <? String.length text)%nat
              then [(span_size span, PrimFloat.opp (bbox_top span), text)]
              else [])
           (page_spans first_page).

Definition get_document_title (pdf_doc : PdfDoc) : result string :=
  let title := metadata_title pdf_doc in
  if negb (is_generic_title title) then
    match title with
    | Some t => Ok (strip t)
    | None => Raise AttributeError
    end
  else
    match pages pdf_doc with
    | [] => Raise IndexError
    | first_page :: _ =>
        let candidates := title_candidates first_page in
        match candidates with
        | [] => Ok "Untitled Document"
        | _ =>
            match sort_desc triple_lt candidates with
            | [] => Raise IndexError
            | (_, _, t) :: _ => Ok t
            end
        end
    end.

(* ================================================================== *)
(** * [group_font_sizes] *)

(** A dictionary with float keys, in insertion order. *)
Definition level_map : Type := list (float * string).

(** [d.get(k)] *)
Fixpoint dict_get (d : level_map) (k : float) : option string :=
  match d with
  | [] => None
  | (k', v) :: d' => if PrimFloat.eqb k' k then Some v else dict_get d' k
  end.

(** [d[k] = v] *)
Fixpoint dict_set (d : level_map) (k : float) (v : string) : level_map :=
  match d with
  | [] => [(k, v)]
  | (k', v') :: d' =>
      if PrimFloat.eqb k' k then (k', v) :: d' else (k', v') :: dict_set d' k v
  end.

(** [str(n)] for the numbers of the levels *)
Definition digit_string (n : Z) : string :=
  String (ascii_of_N (48 + Z.to_N n)) EmptyString.

(** [f"H{idx+1}"] *)
Definition level_name (idx : Z) : string := "H" ++ digit_string (idx + 1).

Section SetOrder.
(** The order in which a set of floats is iterated. *)
Variable set_iter : list float -> list float.

Definition group_font_sizes (font_sizes : list float) : level_map :=
  let unique_sizes := sort_desc PrimFloat.ltb (set_iter (set_of font_sizes)) in
  fold_left (fun heading_map '(idx, size) => dict_set heading_map size (level_name idx))
            (enumerate 0 (firstn 3 unique_sizes)) [].
End SetOrder.

(* ================================================================== *)
(** * [extract_headings_from_pdf] *)

(** [is_bold = "Bold" in font_name or "bold" in font_name] *)
Definition font_is_bold (font_name : string) : bool :=
  contains "Bold" font_name || contains "bold" font_name.

(** The dictionaries appended to [raw_lines] for one page. *)
Definition page_lines (numbered : Z * Page) : list Line :=
  let '(page_number, p) := numbered in
  flat_map (fun span =>
              let text := clean_heading_text (span_text span) in
              if (String.length text <? 3)%nat then []
              else [ {| page := page_number;
                        text := text;
                        size := span_size span;
                        is_bold := font_is_bold (span_font span);
                        y := bbox_top span |} ])
           (page_spans p).

(** [raw_lines] after the four nested loops. *)
Definition collect_raw_lines (pdf_doc : PdfDoc) : list Line :=
  flat_map page_lines (enumerate 1 (pages pdf_doc)).

(** The keys of [seen]: [(level, text.lower(), page)]. *)
Definition key : Type := string * string * Z.

Definition key_eqb (a b : key) : bool :=
  let '(l1, t1, p1) := a in
  let '(l2, t2, p2) := b in
  String.eqb l1 l2 && String.eqb t1 t2 && Z.eqb p1 p2.

Definition key_in (k : key) (seen : list key) : bool := existsb (key_eqb k) seen.

Definition heading_key (h : Heading) : key :=
  (h_level h, lower (h_text h), h_page h).

Record filter_state : Type := mkFilterState {
  headings : list Heading;
  seen : list key
}.

(** One turn of the loop over [merged_lines]. *)
Definition heading_step (heading_levels : level_map)
    (st : filter_state) (line : Line) : filter_state :=
  match dict_get heading_levels (size line) with
  | None => st
  | Some level =>
      if String.eqb level "" then st
      else
        let text := text line in
        if is_table_header text || is_number_only text then st
        else if is_bold line || PrimFloat.ltb (y line) 200 || String.eqb level "H1"
        then
          let key := (level, lower text, page line) in
          if negb (key_in key (seen st))
          then mkFilterState
                 (headings st ++ [ {| h_level := level; h_text := text;
                                     h_page := page line |} ])
                 (key :: seen st)
          else st
        else st
  end.

(** The part of [extract_headings_from_pdf] after the merge. *)
Definition filter_headings (heading_levels : level_map)
    (merged_lines : list Line) : list Heading :=
  match heading_levels with
  | [] => []
  | _ => headings (fold_left (heading_step heading_levels) merged_lines
                             (mkFilterState [] []))
  end.

Section Pipeline.
Variable set_iter : list float -> list float.

Definition extract_headings_from_pdf (pdf_doc : PdfDoc) : result (list Heading) :=
  let raw_lines := collect_raw_lines pdf_doc in
  merged_lines <- merge_multiline_headings raw_lines ;;
  let font_sizes := map size merged_lines in
  let heading_levels := group_font_sizes set_iter font_sizes in
  Ok (filter_headings heading_levels merged_lines).

(** The body of the [try] of [process_all_pdfs] up to [output_data]. *)
Definition process_pdf (pdf_doc : PdfDoc) : result Outline :=
  title <- get_document_title pdf_doc ;;
  outline <- extract_headings_from_pdf pdf_doc ;;
  Ok {| title := title; outline := outline |}.
End Pipeline.

(* ================================================================== *)
(** * [get_data_dirs], [process_all_pdfs] and [main] *)

(** What the batch sees of one file that [input_dir.glob("*.pdf")] lists:
    [pdf_path.name], [pdf_path.stem], and the document [fitz.open] gives,
    or nothing when [fitz.open] raises. *)
Record PdfFile : Type := mkPdfFile {
  file_name : string;
  file_stem : string;
  file_doc : option PdfDoc
}.

(** Why the [try] was left. *)
Inductive cause : Type :=
| CannotOpen
| Exception (e : exn).

(** What is printed, without the wording. *)
Inductive message : Type :=
| Starting
| NoPdfFilesFound (input_dir : string)
| Processed (name out_name : string)
| ErrorProcessing (name : string) (error : cause)
| Completed.

(** The files written so far, by path, each with the value [json.dump]
    serialises into it, and the lines printed so far.  The file system is
    taken to accept every [mkdir] and every write. *)
Record world : Type := mkWorld {
  written : list (string * Outline);
  stdout : list message
}.

(** [open(path, "w")] followed by the dump: the file is created or
    replaced. *)
Fixpoint write_file (path : string) (content : Outline)
    (files : list (string * Outline)) : list (string * Outline) :=
  match files with
  | [] => [(path, content)]
  | (p, c) :: files' =>
      if String.eqb p path then (p, content) :: files'
      else (p, c) :: write_file path content files'
  end.


Definition print (m : message) (w : world) : world :=
  mkWorld (written w) (stdout w ++ [m]).

(** [output_dir / f"{pdf_path.stem}.json"] *)
Definition output_name (f : PdfFile) : string := file_stem f ++ ".json".

Definition output_path (output_dir : string) (f : PdfFile) : string :=
  output_dir ++ "/" ++ output_name f.

(** [get_data_dirs], given whether [/app/input] exists. *)
Definition get_data_dirs (docker_input_exists : bool) : string * string :=
  if docker_input_exists then ("/app/input", "/app/output")
  else ("app/input", "app/output").

Section Batch.
Variable set_iter : list float -> list float.

(** What the body of the [try] computes before it writes. *)
Definition try_outline (f : PdfFile) : cause + Outline :=
  match file_doc f with
  | None => inl CannotOpen
  | Some pdf_doc =>
      match process_pdf set_iter pdf_doc with
      | Ok output_data => inr output_data
      | Raise e => inl (Exception e)
      end
  end.

(** One turn of the loop of [process_all_pdfs]. *)
Definition process_file (output_dir : string) (w : world) (f : PdfFile) : world :=
  match try_outline f with
  | inr output_data =>
      print (Processed (file_name f) (output_name f))
            (mkWorld (write_file (output_path output_dir f) output_data (written w))
                     (stdout w))
  | inl error => print (ErrorProcessing (file_name f) error) w
  end.

(** [process_all_pdfs], given the files the [glob] lists. *)
Definition process_all_pdfs (input_dir output_dir : string)
    (pdf_files : list PdfFile) (w : world) : world :=
  match pdf_files with
  | [] => print (NoPdfFilesFound input_dir) w
  | _ => fold_left (process_file output_dir) pdf_files w
  end.

(** [main], given whether [/app/input] exists and what the [glob] lists in
    a directory. *)
Definition main (docker_input_exists : bool)
    (glob_pdf : string -> list PdfFile) (w : world) : world :=
  let '(input_dir, output_dir) := get_data_dirs docker_input_exists in
  let w := print Starting w in
  let w := process_all_pdfs input_dir output_dir (glob_pdf input_dir) w in
  print Completed w.
End Batch.

(* ================================================================== *)
(** * Notions used to state the properties *)

(** A number that is not NaN equals itself. *)
Definition is_number (x : float) : bool := PrimFloat.eqb x x.

(** ** Merged lines and their contributors *)

(** A block of contributors: the first one and those after it. *)
Definition block : Type := (Line * list Line)%type.

Definition block_lines (b : block) : list Line := fst b :: snd b.
Definition block_last (b : block) : Line := List.last (snd b) (fst b).
Definition flush_block (b : block) : Line := flush (fst b) (block_lines b).

(** Each element is close to the one before it. *)
Inductive chain : list Line -> Prop :=
| chain_nil : chain []
| chain_one x : chain [x]
| chain_cons x x' l :
    close_to x' x = true -> chain (x' :: l) -> chain (x :: x' :: l).

(** The first line of each block is not close to the last line of the
    block before it. *)
Inductive separated : list block -> Prop :=
| separated_nil : separated []
| separated_one b : separated [b]
| separated_cons b b' bs :
    close_to (fst b') (block_last b) = false ->
    separated (b' :: bs) -> separated (b :: b' :: bs).



(** ** Bold fonts *)

(** The font name contains "bold", whatever the case of its letters. *)
Definition name_has_bold (font_name : string) : bool :=
  contains "bold" (lower font_name).

(** ** Headings *)

(** Every character is in the class *)
Fixpoint all_in (p : ascii -> bool) (s : string) : bool :=
  match s with
  | EmptyString => true
  | String c s' => p c && all_in p s'
  end.

Definition all_digits (s : string) : bool := all_in is_digit s.

(** One or more digits *)
Definition digits (s : string) : bool :=
  negb (String.eqb s "") && all_digits s.

(** [s] without its last character when that is [c] *)
Fixpoint drop_final (c : ascii) (s : string) : string :=
  match s with
  | EmptyString => EmptyString
  | String a EmptyString => if Ascii.eqb a c then EmptyString else s
  | String a s' => String a (drop_final c s')
  end.

(** One or more digits, optionally followed by a single trailing dot *)
Definition number_with_dot (s : string) : bool := digits (drop_final "." s).

(** The decision of the filter on one merged line, in the words of the
    specification: the heading it becomes, if any. *)
Definition heading_of (levels : level_map) (line : Line) : option Heading :=
  match dict_get levels (size line) with
  | None => None
  | Some level =>
      if negb (str_in (lower (text line)) table_headers)
         && negb (number_with_dot (text line))
         && (is_bold line || PrimFloat.ltb (y line) 200 || String.eqb level "H1")
      then Some {| h_level := level; h_text := text line; h_page := page line |}
      else None
  end.

(** The elements [f] maps to something, in order *)
Fixpoint choose {A B : Type} (f : A -> option B) (l : list A) : list B :=
  match l with
  | [] => []
  | x :: l' =>
      match f x with
      | Some b => b :: choose f l'
      | None => choose f l'
      end
  end.

Definition other_key (h h' : Heading) : bool :=
  negb (key_eqb (heading_key h') (heading_key h)).

(** The first heading of every key, in order *)
Fixpoint first_by_key (hs : list Heading) : list Heading :=
  match hs with
  | [] => []
  | h :: hs' => h :: filter (other_key h) (first_by_key hs')
  end.

(** [l1] is [l2] with some elements left out *)
Inductive subseq {A : Type} : list A -> list A -> Prop :=
| subseq_nil : subseq [] []
| subseq_skip x l1 l2 : subseq l1 l2 -> subseq l1 (x :: l2)
| subseq_keep x l1 l2 : subseq l1 l2 -> subseq (x :: l1) (x :: l2).

(** No white space at the start *)
Definition head_ok (s : string) : Prop :=
  match s with
  | EmptyString => True
  | String c _ => is_space c = false
  end.

(** No white space at either end *)
Definition trimmed (s : string) : Prop :=
  lstrip_by is_space s = s /\ rstrip_by is_space s = s.

(** No level has the empty name *)
Definition named (levels : level_map) : Prop :=
  Forall (fun kv => snd kv <> "") levels.

(** ** The strings a regular expression matches *)

Inductive matches : regex -> string -> Prop :=
| MEps : matches Eps ""
| MCls p c : p c = true -> matches (Cls p) (String c "")
| MCat r1 r2 s1 s2 :
    matches r1 s1 -> matches r2 s2 -> matches (Cat r1 r2) (s1 ++ s2)
| MAltL r1 r2 s : matches r1 s -> matches (Alt r1 r2) s
| MAltR r1 r2 s : matches r2 s -> matches (Alt r1 r2) s
| MStar0 r : matches (Star r) ""
| MStarApp r s1 s2 :
    matches r s1 -> matches (Star r) s2 -> matches (Star r) (s1 ++ s2).


(** The decision of [heading_step] on one line, apart from [seen]. *)
Definition step_heading (levels : level_map) (line : Line) : option Heading :=
  match dict_get levels (size line) with
  | None => None
  | Some level =>
      if String.eqb level "" then None
      else if is_table_header (text line) || is_number_only (text line) then None
      else if is_bold line || PrimFloat.ltb (y line) 200 || String.eqb level "H1"
      then Some {| h_level := level; h_text := text line; h_page := page line |}
      else None
  end.

(** The headings whose key is new, given the keys seen so far. *)
Fixpoint unseen (seen : list key) (hs : list Heading) : list Heading :=
  match hs with
  | [] => []
  | h :: hs' =>
      if key_in (heading_key h) seen then unseen seen hs'
      else h :: unseen (heading_key h :: seen) hs'
  end.

(** ** Sizes *)

(** No two elements are equal as numbers. *)
Fixpoint distinct (l : list float) : Prop :=
  match l with
  | [] => True
  | x :: l' => Forall (fun x' => PrimFloat.eqb x x' = false) l' /\ distinct l'
  end.

(** Strictly descending *)
Definition descending (l : list float) : Prop :=
  StronglySorted (fun a b => PrimFloat.ltb b a = true) l.

Definition numbers (l : list float) : Prop :=
  Forall (fun x => is_number x = true) l.

(** The order of iteration of a set lists its elements, each once. *)
Definition iterates (set_iter : list float -> list float) : Prop :=
  forall s, Permutation (set_iter s) s.

(** ** Titles *)

(** [p] starts [s], up to case *)
Definition ci_prefix (p s : string) : bool := prefix (lower p) (lower s).

(** [p] ends [s] *)
Fixpoint suffix (p s : string) : bool :=
  String.eqb p s
  || match s with
     | EmptyString => false
     | String _ s' => suffix p s'
     end.

(** [p] ends [s], up to case *)
Definition ci_suffix (p s : string) : bool := suffix (lower p) (lower s).

(** [s] without its first [n] characters *)
Fixpoint drop (n : nat) (s : string) : string :=
  match n, s with
  | O, _ => s
  | S _, EmptyString => EmptyString
  | S n', String _ s' => drop n' s'
  end.

(** [s] without the newline that ends it, if one does *)
Definition chomp (s : string) : string := drop_final "010" s.

(** No character is a newline *)
Definition newline_free (s : string) : bool :=
  all_in (fun a => negb (Ascii.eqb a "010")) s.

(** The four generic checks in the words of the specification: the prefix
    "Microsoft Word", the prefix "Document" followed by digits, the prefix
    "Untitled", the suffixes ".doc", ".docx" and ".pdf", all up to case. *)
Definition generic_as_stated (t : string) : bool :=
  ci_prefix "Microsoft Word" t
  || (ci_prefix "Document" t
      && match drop 8 t with
         | EmptyString => false
         | String c _ => is_digit c
         end)
  || ci_prefix "Untitled" t
  || ci_suffix ".doc" t || ci_suffix ".docx" t || ci_suffix ".pdf" t.

(** The checks the patterns make: the second one wants the whole title to
    be "Document" and digits, possibly none; where a pattern ends in [$], a
    newline that ends the title is not counted. *)
Definition generic_by_pattern (t : string) : bool :=
  ci_prefix "Microsoft Word" t
  || (ci_prefix "Document" (chomp t) && all_digits (drop 8 (chomp t)))
  || ci_prefix "Untitled" t
  || (ci_suffix ".doc" (chomp t) || ci_suffix ".docx" (chomp t))
  || ci_suffix ".pdf" (chomp t).

(** The fallback of [get_document_title]: the title read off page one. *)
Definition first_page_title (pdf_doc : PdfDoc) : result string :=
  match pages pdf_doc with
  | [] => Raise IndexError
  | first_page :: _ =>
      match title_candidates first_page with
      | [] => Ok "Untitled Document"
      | c :: cs =>
          match sort_desc triple_lt (c :: cs) with
          | [] => Raise IndexError
          | (_, _, t) :: _ => Ok t
          end
      end
  end.


(** A span whose cleaned text has more than three characters *)
Definition is_candidate (span : Span) : bool :=
  (3 <? String.length (clean_heading_text (span_text span)))%nat.


(** A document with a title that starts with "Document1" and a heading on
    page one. *)
Definition notes_doc : PdfDoc :=
  mkPdfDoc (Some "Document1 notes")
    [mkPage [mkBlock [mkTextLine
       [mkSpan "Annual Report" "Helvetica-Bold" 24%float
               (72, 80, 300, 110)%float]]]].

(** A document whose only span is too short to be collected. *)
Definition blank_doc : PdfDoc :=
  mkPdfDoc None
    [mkPage [mkBlock [mkTextLine
       [mkSpan " 7 " "Helvetica" 9%float (300, 780, 310, 790)%float]]]].

(** Two spans of the same size on page one, the second one higher up. *)
Definition cover_doc : PdfDoc :=
  mkPdfDoc (Some "Untitled")
    [mkPage [mkBlock [mkTextLine
       [mkSpan "small print" "Helvetica" 10%float (72, 20, 200, 30)%float;
        mkSpan "Second line" "Helvetica" 20%float (72, 100, 200, 120)%float;
        mkSpan "First line" "Helvetica" 20%float (72, 60, 200, 80)%float]]]].

(** The two pages of the specification's scenario. *)
Definition plan_doc : PdfDoc :=
  mkPdfDoc None
    [mkPage [mkBlock [mkTextLine
       [mkSpan "Project Plan" "Helvetica-Bold" 24%float
               (200, 50, 400, 80)%float]]];
     mkPage [mkBlock [mkTextLine
       [mkSpan "Timeline" "Helvetica-Bold" 18%float (72, 80, 200, 100)%float;
        mkSpan "see appendix" "Helvetica" 12%float
               (72, 300, 200, 314)%float]]]].

(** ** Cleaned texts *)

(** Every white character is a plain space, and none follows another
    ([prev] says that the character before was white). *)
Fixpoint well_spaced (prev : bool) (s : string) : Prop :=
  match s with
  | EmptyString => True
  | String c s' =>
      if is_space c then c = " "%char /\ prev = false /\ well_spaced true s'
      else well_spaced false s'
  end.

(** ** More on merged lines *)

(** No element is close to the one before it. *)
Inductive apart : list Line -> Prop :=
| apart_nil : apart []
| apart_one x : apart [x]
| apart_cons x x' l :
    close_to x' x = false -> apart (x' :: l) -> apart (x :: x' :: l).

(** What [merge_multiline_headings] returns once the loop is left in
    state [st]. *)
Definition merge_finish (st : merge_state) : list Line :=
  match buffer st with
  | [] => merged st
  | b0 :: _ => merged st ++ [flush b0 (buffer st)]
  end.

(** ** The batch *)


(* ================================================================== *)
(** * The order of binary64 numbers *)

Section FloatOrder.
Local Open Scope float_scope.

Ltac sf_cases :=
  repeat match goal with
  | s : bool |- _ => destruct s
  | |- context [Z.compare ?a ?b] => destruct (Z.compare_spec a b)
  | H : context [Z.compare ?a ?b] |- _ => destruct (Z.compare_spec a b)
  | |- context [Pos.compare ?a ?b] => destruct (Pos.compare_spec a b)
  | H : context [Pos.compare ?a ?b] |- _ => destruct (Pos.compare_spec a b)
  end;
  simpl in *; subst; try congruence; try lia.

Ltac sf_start :=
  unfold SFcompare; intros;
  repeat match goal with f : spec_float |- _ => destruct f end;
  simpl in *;
  change (Pos.compare_cont Eq) with Pos.compare in *.

Ltac sf_inj :=
  repeat match goal with H : Some _ = Some _ |- _ => injection H as H end.

Lemma SFcompare_antisym a b c :
  SFcompare a b = Some c -> SFcompare b a = Some (CompOpp c).
Proof.
  revert a b c. sf_start; try congruence;
  match goal with H : Some _ = Some _ |- _ => injection H as <- end;
  try reflexivity; sf_cases.
Qed.

Lemma SFcompare_total a b :
  a <> S754_nan -> b <> S754_nan -> exists c, SFcompare a b = Some c.
Proof. destruct a, b; simpl; intros; try congruence; eauto. Qed.

Lemma SFcompare_refl a : a <> S754_nan -> SFcompare a a = Some Eq.
Proof.
  revert a. sf_start; try congruence; f_equal; sf_cases;
  rewrite Pos.compare_refl; reflexivity.
Qed.

Lemma SFcompare_lt_trans a b c :
  SFcompare a b = Some Lt -> SFcompare b c = Some Lt -> SFcompare a c = Some Lt.
Proof.
  revert a b c. sf_start; try congruence; sf_inj; f_equal; sf_cases.
Qed.

Lemma SFcompare_eq_l a b c :
  SFcompare a b = Some Eq -> SFcompare a c = SFcompare b c.
Proof.
  revert a b c. sf_start; try congruence; sf_inj;
  try reflexivity; f_equal; sf_cases.
Qed.

Lemma SFcompare_eq_r a b c :
  SFcompare a b = Some Eq -> SFcompare c a = SFcompare c b.
Proof.
  revert a b c. sf_start; try congruence; sf_inj;
  try reflexivity; f_equal; sf_cases.
Qed.


Lemma is_number_spec x : is_number x = true <-> Prim2SF x <> S754_nan.
Proof.
  unfold is_number. rewrite eqb_spec. unfold SFeqb. split.
  - intros H E. rewrite E in H. discriminate.
  - intros H. rewrite (SFcompare_refl _ H). reflexivity.
Qed.

Lemma ltb_irrefl x : (x <? x) = false.
Proof.
  rewrite ltb_spec. unfold SFltb.
  destruct (SFcompare (Prim2SF x) (Prim2SF x)) as [[]|] eqn:E; auto.
  apply SFcompare_antisym in E as E'. simpl in E'. congruence.
Qed.

Lemma ltb_asym x x' : (x <? x') = true -> (x' <? x) = false.
Proof.
  rewrite !ltb_spec. unfold SFltb.
  destruct (SFcompare (Prim2SF x) (Prim2SF x')) as [[]|] eqn:E; try discriminate.
  apply SFcompare_antisym in E. rewrite E. reflexivity.
Qed.

Lemma ltb_trans x x' x'' :
  (x <? x') = true -> (x' <? x'') = true -> (x <? x'') = true.
Proof.
  rewrite !ltb_spec. unfold SFltb.
  destruct (SFcompare (Prim2SF x) (Prim2SF x')) as [[]|] eqn:E; try discriminate.
  destruct (SFcompare (Prim2SF x') (Prim2SF x'')) as [[]|] eqn:E'; try discriminate.
  rewrite (SFcompare_lt_trans _ _ _ E E'). reflexivity.
Qed.

Lemma float_trichotomy x x' :
  is_number x = true -> is_number x' = true ->
  (x <? x') = true \/ (x =? x') = true \/ (x' <? x) = true.
Proof.
  rewrite !is_number_spec. intros Hx Hx'.
  destruct (SFcompare_total _ _ Hx Hx') as [c E].
  rewrite !ltb_spec, eqb_spec. unfold SFltb, SFeqb.
  rewrite (SFcompare_antisym _ _ _ E), E. destruct c; simpl; auto.
Qed.

Lemma eqb_sym x x' : (x =? x') = (x' =? x).
Proof.
  rewrite !eqb_spec. unfold SFeqb.
  destruct (SFcompare (Prim2SF x) (Prim2SF x')) as [c|] eqn:E.
  - rewrite (SFcompare_antisym _ _ _ E). destruct c; reflexivity.
  - destruct (SFcompare (Prim2SF x') (Prim2SF x)) as [c|] eqn:E'; auto.
    apply SFcompare_antisym in E'. congruence.
Qed.

Lemma eqb_true_cmp x x' :
  (x =? x') = true -> SFcompare (Prim2SF x) (Prim2SF x') = Some Eq.
Proof.
  rewrite eqb_spec. unfold SFeqb.
  destruct (SFcompare (Prim2SF x) (Prim2SF x')) as [[]|]; congruence.
Qed.

Lemma eqb_ltb_l x x' z : (x =? x') = true -> (x <? z) = (x' <? z).
Proof.
  intros H%eqb_true_cmp. rewrite !ltb_spec. unfold SFltb.
  rewrite (SFcompare_eq_l _ _ _ H). reflexivity.
Qed.

Lemma eqb_ltb_r x x' z : (x =? x') = true -> (z <? x) = (z <? x').
Proof.
  intros H%eqb_true_cmp. rewrite !ltb_spec. unfold SFltb.
  rewrite (SFcompare_eq_r _ _ _ H). reflexivity.
Qed.

Lemma eqb_eqb_l x x' z : (x =? x') = true -> (x =? z) = (x' =? z).
Proof.
  intros H%eqb_true_cmp. rewrite !eqb_spec. unfold SFeqb.
  rewrite (SFcompare_eq_l _ _ _ H). reflexivity.
Qed.

Lemma ltb_neq x x' : (x <? x') = true -> (x =? x') = false.
Proof.
  rewrite ltb_spec, eqb_spec. unfold SFltb, SFeqb.
  destruct (SFcompare (Prim2SF x) (Prim2SF x')) as [[]|]; congruence.
Qed.

Lemma leb_not_ltb x x' : (x <=? x') = true -> (x' <? x) = false.
Proof.
  rewrite ltb_spec, leb_spec. unfold SFltb, SFleb.
  destruct (SFcompare (Prim2SF x) (Prim2SF x')) as [c|] eqn:E; try discriminate.
  rewrite (SFcompare_antisym _ _ _ E). destruct c; simpl; congruence.
Qed.



End FloatOrder.

(* ================================================================== *)
(** * Strings: appending and joining *)

Lemma append_nil_r (s : string) : (s ++ "")%string = s.
Proof. induction s; simpl; congruence. Qed.

Lemma append_assoc (s1 s2 s3 : string) :
  ((s1 ++ s2) ++ s3 = s1 ++ (s2 ++ s3))%string.
Proof. induction s1; simpl; congruence. Qed.

Lemma join_cons2 sep (x x' : string) (l : list string) :
  join sep (x :: x' :: l) = (x ++ sep ++ join sep (x' :: l))%string.
Proof. reflexivity. Qed.

Lemma join_app sep (l1 l2 : list string) :
  l1 <> [] -> l2 <> [] ->
  join sep (l1 ++ l2) = (join sep l1 ++ sep ++ join sep l2)%string.
Proof.
  induction l1 as [|x l1 IH]; intros H1 H2; [congruence|].
  destruct l1 as [|x' l1].
  - destruct l2; [congruence|]. reflexivity.
  - change ((x :: x' :: l1) ++ l2) with (x :: x' :: (l1 ++ l2)).
    rewrite !join_cons2. change (x' :: l1 ++ l2) with ((x' :: l1) ++ l2).
    rewrite IH by congruence. now rewrite !append_assoc.
Qed.

(* ================================================================== *)
(** * The multiline merger *)

Section Merger.

Lemma chain_snoc (l : list Line) (d x : Line) :
  chain l -> l <> [] -> close_to x (List.last l d) = true -> chain (l ++ [x]).
Proof.
  induction 1 as [|x0|x0 x1 l Hc Hch IH]; intros Hne Hx.
  - congruence.
  - simpl in *. constructor; [assumption | constructor].
  - change ((x0 :: x1 :: l) ++ [x]) with (x0 :: (x1 :: l) ++ [x]).
    simpl app. constructor; [assumption|].
    apply IH; [congruence|]. exact Hx.
Qed.

Lemma last_cons_default (l : list Line) (h d : Line) :
  List.last (h :: l) d = List.last l h.
Proof.
  revert h d. induction l as [|a l' IH]; intros h d; [reflexivity|].
  change (List.last (h :: a :: l') d) with (List.last (a :: l') d).
  now rewrite (IH a d), (IH a h).
Qed.

Lemma last_snoc (l : list Line) (x d : Line) : List.last (l ++ [x]) d = x.
Proof. apply last_last. Qed.

Lemma merge_step_open (m : list Line) (h : Line) (t : list Line) (l x : Line) :
  merge_step (mkMergeState m (h :: t) (Some l)) x
  = if close_to x l
    then Ok (mkMergeState m ((h :: t) ++ [x]) (Some x))
    else Ok (mkMergeState (m ++ [flush h (h :: t)]) [x] (Some x)).
Proof. reflexivity. Qed.

(** The loop invariant: with a buffer [h :: t] open, the rest of the
    input is cut into blocks, the first of which continues the buffer. *)
Lemma merge_loop_blocks (rest : list Line) :
  forall (m : list Line) (h : Line) (t : list Line),
    chain (h :: t) ->
    exists st t' bs,
      merge_loop (mkMergeState m (h :: t) (Some (List.last t h))) rest = Ok st
      /\ match buffer st with
         | [] => merged st
         | b0 :: _ => merged st ++ [flush b0 (buffer st)]
         end = m ++ map flush_block ((h, t ++ t') :: bs)
      /\ flat_map block_lines ((h, t ++ t') :: bs) = (h :: t) ++ rest
      /\ Forall (fun b => chain (block_lines b)) ((h, t ++ t') :: bs)
      /\ separated ((h, t ++ t') :: bs).
Proof.
  induction rest as [|x rest IH]; intros m h t Hch.
  - exists (mkMergeState m (h :: t) (Some (List.last t h))), [], [].
    simpl. rewrite !app_nil_r. repeat split; try reflexivity.
    + constructor; [assumption | constructor].
    + constructor.
  - change (merge_loop ?st (x :: rest))
      with (st' <- merge_step st x ;; merge_loop st' rest).
    rewrite merge_step_open.
    destruct (close_to x (List.last t h)) eqn:Hx; simpl bind.
    + assert (Hch' : chain (h :: (t ++ [x]))).
      { change (h :: t ++ [x]) with ((h :: t) ++ [x]).
        apply chain_snoc with (d := h); [assumption | congruence |].
        now rewrite last_cons_default. }
      destruct (IH m h (t ++ [x]) Hch') as (st & t' & bs & Hl & Hf & Hc & Ha & Hs).
      rewrite last_snoc in Hl.
      exists st, (x :: t'), bs.
      replace (t ++ x :: t') with ((t ++ [x]) ++ t') by now rewrite <- app_assoc.
      repeat split; try assumption.
      rewrite Hc. simpl. now rewrite <- !app_assoc.
    + destruct (IH (m ++ [flush h (h :: t)]) x [] (chain_one x))
        as (st & t' & bs & Hl & Hf & Hc & Ha & Hs).
      simpl in Hl. exists st, [], ((x, [] ++ t') :: bs).
      rewrite app_nil_r. repeat split.
      * exact Hl.
      * rewrite Hf. rewrite <- app_assoc. reflexivity.
      * change (flat_map block_lines ((h, t) :: (x, [] ++ t') :: bs))
          with (block_lines (h, t) ++ flat_map block_lines ((x, [] ++ t') :: bs)).
        rewrite Hc. reflexivity.
      * constructor; assumption.
      * constructor; [exact Hx | assumption].
Qed.

(** What the merger computes: the input cut into blocks, each a chain
    of close lines, no block continuing the one before it. *)
Lemma merge_blocks (ls : list Line) :
  exists bs,
    merge_multiline_headings ls = Ok (map flush_block bs)
    /\ flat_map block_lines bs = ls
    /\ Forall (fun b => chain (block_lines b)) bs
    /\ separated bs.
Proof.
  destruct ls as [|x rest].
  - exists []. repeat split; constructor.
  - destruct (merge_loop_blocks rest [] x [] (chain_one x))
      as (st & t' & bs & Hl & Hf & Hc & Ha & Hs).
    exists ((x, [] ++ t') :: bs). repeat split; try assumption.
    unfold merge_multiline_headings.
    change (merge_loop (mkMergeState [] [] None) (x :: rest))
      with (merge_loop (mkMergeState [] [x] (Some (List.last [] x))) rest).
    rewrite Hl. simpl bind. destruct (buffer st); rewrite Hf; reflexivity.
Qed.

Lemma join_blocks (bs : list block) :
  join " " (map text (map flush_block bs))
  = join " " (map text (flat_map block_lines bs)).
Proof.
  induction bs as [|b bs IH]; [reflexivity|].
  destruct bs as [|b' bs].
  - simpl. now rewrite app_nil_r.
  - change (flat_map block_lines (b :: b' :: bs))
      with (block_lines b ++ flat_map block_lines (b' :: bs)).
    rewrite map_app, join_app.
    + rewrite <- IH. reflexivity.
    + discriminate.
    + discriminate.
Qed.

End Merger.

Section MergerProperties.
Local Open Scope float_scope.



(** Two lines whose positions differ by 25 or more stay two lines. *)
Lemma far_apart_not_merged (a b : Line) :
  (25 <=? PrimFloat.abs (y b - y a)) = true ->
  merge_multiline_headings [a; b] = Ok [flush a [a]; flush b [b]].
Proof.
  intros H. apply leb_not_ltb in H.
  unfold merge_multiline_headings. simpl merge_loop.
  rewrite merge_step_open. unfold close_to. rewrite H, andb_false_r.
  reflexivity.
Qed.

(** The boundary of the specification: positions 30 apart. *)
Example thirty_apart_not_merged :
  merge_multiline_headings
    [mkLine 1 "Quarterly" 18 true 100; mkLine 1 "Results" 18 true 130]
  = Ok [mkLine 1 "Quarterly" 18 true 100; mkLine 1 "Results" 18 true 130].
Proof. now rewrite far_apart_not_merged. Qed.

(** The specification's example of a merge. *)
Example intro_duction_merged :
  merge_multiline_headings
    [mkLine 1 "Intro" 18 false 10; mkLine 1 "duction" 18 false 12]
  = Ok [mkLine 1 "Intro duction" 18 false 10].
Proof. reflexivity. Qed.

(** C10. The merger neither drops, duplicates nor reorders text: the
    merged lines are the flushes of blocks of contributors, every block
    is non-empty, the blocks in order make up the input, the text of a
    merged line is the space-join of the texts of its block, and the
    space-join of the merged texts is the space-join of the input texts. *)
Theorem merge_preserves_text (ls : list Line) :
  exists ms bs,
    merge_multiline_headings ls = Ok ms
    /\ ms = map flush_block bs
    /\ flat_map block_lines bs = ls
    /\ (forall b, In b bs ->
          block_lines b <> []
          /\ text (flush_block b) = join " " (map text (block_lines b)))
    /\ join " " (map text ms) = join " " (map text ls).
Proof.
  destruct (merge_blocks ls) as (bs & Hm & Hc & _ & _).
  exists (map flush_block bs), bs. repeat split; try assumption.
  - discriminate.
  - rewrite join_blocks. now rewrite Hc.
Qed.



End MergerProperties.

(* ================================================================== *)
(** * Bold fonts *)

Section Bold.

Lemma prefix_lower (p s : string) :
  prefix p s = true -> prefix (lower p) (lower s) = true.
Proof.
  revert s. induction p as [|a p IH]; intros s H.
  - destruct s; reflexivity.
  - destruct s as [|b s]; simpl in *; [discriminate|].
    destruct (ascii_dec a b) as [->|]; [|discriminate].
    destruct (ascii_dec (lower_char b) (lower_char b)); [|congruence].
    now apply IH.
Qed.

Lemma contains_lower (p s : string) :
  contains p s = true -> contains (lower p) (lower s) = true.
Proof.
  induction s as [|b s IH]; intros H.
  - cbn [contains] in H. destruct (prefix p "") eqn:E; [|discriminate].
    apply prefix_lower in E. cbn [contains lower] in *. now rewrite E.
  - cbn [contains] in H. destruct (prefix p (String b s)) eqn:E.
    + apply prefix_lower in E. cbn [contains lower] in *. now rewrite E.
    + apply IH in H. cbn [contains lower].
      destruct (prefix (lower p) (String (lower_char b) (lower s))); auto.
Qed.

Lemma font_is_bold_sound (font_name : string) :
  font_is_bold font_name = true -> name_has_bold font_name = true.
Proof.
  unfold font_is_bold, name_has_bold. intros [H|H]%orb_prop.
  - now apply contains_lower in H.
  - now apply contains_lower in H.
Qed.

(** C3.  A font the collector reports bold does contain "bold" up to
    case, but not conversely: for the font name "Helvetica-BOLD" the
    collector sets [is_bold] to false. *)
Theorem font_is_bold_misses_upper_case :
  (forall font_name,
      font_is_bold font_name = true -> name_has_bold font_name = true)
  /\ name_has_bold "Helvetica-BOLD" = true
  /\ font_is_bold "Helvetica-BOLD" = false
  /\ collect_raw_lines
       (mkPdfDoc None
          [mkPage [mkBlock [mkTextLine
             [mkSpan "Summary" "Helvetica-BOLD" 12%float
                     (72, 90, 140, 104)%float]]]])
     = [mkLine 1 "Summary" 12%float false 90%float].
Proof.
  split; [exact font_is_bold_sound|]. repeat split; vm_compute; reflexivity.
Qed.

End Bold.

(* ================================================================== *)
(** * The heading filter: the loop and its duplicate suppression *)

Section Filter.

Lemma key_eqb_eq (a b : key) : key_eqb a b = true <-> a = b.
Proof.
  destruct a as [[l1 t1] p1], b as [[l2 t2] p2]. unfold key_eqb.
  rewrite !andb_true_iff, !String.eqb_eq, Z.eqb_eq.
  split; [intros [[-> ->] ->]; reflexivity | intros [= -> -> ->]; auto].
Qed.

Lemma key_eqb_refl (a : key) : key_eqb a a = true.
Proof. now apply key_eqb_eq. Qed.

Lemma heading_step_none levels st line :
  step_heading levels line = None -> heading_step levels st line = st.
Proof.
  unfold step_heading, heading_step.
  destruct (dict_get levels (size line)) as [level|]; [|reflexivity].
  destruct (String.eqb level ""); [reflexivity|].
  destruct (is_table_header (text line) || is_number_only (text line));
    [reflexivity|].
  destruct (is_bold line || PrimFloat.ltb (y line) 200 || String.eqb level "H1");
    [discriminate | reflexivity].
Qed.

Lemma heading_step_some levels st line h :
  step_heading levels line = Some h ->
  heading_step levels st line
  = if key_in (heading_key h) (seen st) then st
    else mkFilterState (headings st ++ [h]) (heading_key h :: seen st).
Proof.
  unfold step_heading, heading_step.
  destruct (dict_get levels (size line)) as [level|]; [|discriminate].
  destruct (String.eqb level ""); [discriminate|].
  destruct (is_table_header (text line) || is_number_only (text line));
    [discriminate|].
  destruct (is_bold line || PrimFloat.ltb (y line) 200 || String.eqb level "H1");
    [|discriminate].
  intros [= <-]. unfold heading_key. simpl.
  destruct (key_in (level, lower (text line), page line) (seen st)); reflexivity.
Qed.

Lemma heading_loop levels (ls : list Line) :
  forall st,
    headings (fold_left (heading_step levels) ls st)
    = headings st ++ unseen (seen st) (choose (step_heading levels) ls).
Proof.
  induction ls as [|line ls IH]; intros st; simpl.
  - now rewrite app_nil_r.
  - destruct (step_heading levels line) as [h|] eqn:E.
    + rewrite (heading_step_some _ st _ _ E). simpl.
      destruct (key_in (heading_key h) (seen st)).
      * apply IH.
      * rewrite IH. simpl. now rewrite <- app_assoc.
    + rewrite (heading_step_none _ st _ E). apply IH.
Qed.

Lemma filter_filter {A} (p q : A -> bool) (l : list A) :
  filter p (filter q l) = filter (fun x => q x && p x) l.
Proof.
  induction l as [|x l IH]; [reflexivity|]. simpl.
  destruct (q x); simpl; [destruct (p x)|]; now rewrite ?IH.
Qed.

Lemma unseen_first_by_key (hs : list Heading) :
  forall seen,
    unseen seen hs
    = filter (fun h => negb (key_in (heading_key h) seen)) (first_by_key hs).
Proof.
  induction hs as [|h hs IH]; intros seen; [reflexivity|]. simpl.
  destruct (key_in (heading_key h) seen) eqn:Hin; simpl.
  - rewrite IH, filter_filter. apply filter_ext_in. intros h' _.
    unfold other_key.
    destruct (key_eqb (heading_key h') (heading_key h)) eqn:E; [|reflexivity].
    apply key_eqb_eq in E. rewrite E, Hin. reflexivity.
  - f_equal. rewrite IH, filter_filter. apply filter_ext. intros h'.
    unfold other_key, key_in. cbn [existsb]. now rewrite negb_orb.
Qed.

Lemma choose_empty_levels (ls : list Line) : choose (step_heading []) ls = [].
Proof. induction ls; simpl; auto. Qed.

(** The filter keeps the first heading of every key among those the
    lines become. *)
Lemma filter_headings_first_by_key levels (ls : list Line) :
  filter_headings levels ls = first_by_key (choose (step_heading levels) ls).
Proof.
  unfold filter_headings. destruct levels as [|e levels].
  - now rewrite choose_empty_levels.
  - rewrite heading_loop, unseen_first_by_key. simpl.
    clear. induction (first_by_key _) as [|a l IHl]; simpl; congruence.
Qed.

(** ** What keeping the first of every key means *)

Lemma subseq_filter {A} (p : A -> bool) (l : list A) : subseq (filter p l) l.
Proof.
  induction l as [|x l IH]; simpl; [constructor|].
  destruct (p x); [apply subseq_keep | apply subseq_skip]; assumption.
Qed.

Lemma subseq_trans {A} (l1 l2 l3 : list A) :
  subseq l1 l2 -> subseq l2 l3 -> subseq l1 l3.
Proof.
  intros H12 H23. revert l1 H12.
  induction H23 as [|x l2 l3 H IH|x l2 l3 H IH]; intros l1 H12.
  - exact H12.
  - constructor. now apply IH.
  - inversion H12; subst.
    + apply subseq_skip. now apply IH.
    + apply subseq_keep. now apply IH.
Qed.

Lemma first_by_key_subseq (hs : list Heading) : subseq (first_by_key hs) hs.
Proof.
  induction hs as [|h hs IH]; simpl; [apply subseq_nil | apply subseq_keep].
  eapply subseq_trans; [apply subseq_filter | exact IH].
Qed.

Lemma first_by_key_NoDup (hs : list Heading) :
  NoDup (map heading_key (first_by_key hs)).
Proof.
  induction hs as [|h hs IH]; simpl; constructor.
  - intros Hin. apply in_map_iff in Hin as (h' & Hk & Hin).
    apply filter_In in Hin as [_ Ho]. unfold other_key in Ho.
    rewrite Hk, key_eqb_refl in Ho. discriminate.
  - clear -IH. induction (first_by_key hs) as [|a l IHl]; simpl; [constructor|].
    inversion IH as [|? ? Hn Hd]; subst. destruct (other_key h a); simpl.
    + constructor; [|now apply IHl].
      intros Hin. apply Hn. apply in_map_iff in Hin as (h' & Hk & Hin).
      apply filter_In in Hin as [Hin _]. apply in_map_iff. eauto.
    + now apply IHl.
Qed.

Lemma first_by_key_covers (hs : list Heading) (h : Heading) :
  In h hs ->
  exists h', In h' (first_by_key hs) /\ heading_key h' = heading_key h.
Proof.
  induction hs as [|h0 hs IH]; simpl; [tauto|].
  intros [->|Hin]; [eauto|].
  destruct (IH Hin) as (h' & Hin' & Hk).
  destruct (key_eqb (heading_key h') (heading_key h0)) eqn:E.
  - apply key_eqb_eq in E. exists h0. split; [now left | congruence].
  - exists h'. split; [|exact Hk]. right. apply filter_In.
    split; [exact Hin'|]. unfold other_key. now rewrite E.
Qed.

Lemma first_by_key_first (hs : list Heading) (h : Heading) :
  In h (first_by_key hs) ->
  exists pre post,
    hs = pre ++ h :: post
    /\ forall h', In h' pre -> heading_key h' <> heading_key h.
Proof.
  induction hs as [|h0 hs IH]; simpl; [tauto|].
  intros [->|Hin].
  - exists [], hs. split; [reflexivity | intros ? []].
  - apply filter_In in Hin as [Hin Ho].
    destruct (IH Hin) as (pre & post & -> & Hpre).
    exists (h0 :: pre), post. split; [reflexivity|].
    intros h' [<-|Hin'].
    + intros E. unfold other_key in Ho. rewrite E, key_eqb_refl in Ho.
      discriminate.
    + now apply Hpre.
Qed.

End Filter.

(* ================================================================== *)
(** * The matcher is sound and complete for [matches] *)

Section Matcher.

Lemma append_eq_nil (s1 s2 : string) :
  (s1 ++ s2)%string = "" -> s1 = "" /\ s2 = "".
Proof. destruct s1; simpl; [auto | discriminate]. Qed.

Lemma nullable_matches (r : regex) : nullable r = true <-> matches r "".
Proof.
  split.
  - induction r; simpl; intros H; try discriminate.
    + constructor.
    + apply andb_prop in H as [H1 H2].
      change "" with ("" ++ "")%string. constructor; auto.
    + apply orb_prop in H as [H|H]; [apply MAltL | apply MAltR]; auto.
    + constructor.
  - intros H. remember "" as s eqn:E.
    induction H; simpl; try discriminate; auto.
    + apply append_eq_nil in E as [-> ->]. now rewrite IHmatches1, IHmatches2.
    + now rewrite IHmatches.
    + rewrite IHmatches by assumption. apply orb_true_r.
Qed.

Lemma deriv_sound (c : ascii) (r : regex) :
  forall s, matches (deriv c r) s -> matches r (String c s).
Proof.
  induction r; intros s H; simpl in H.
  - inversion H.
  - inversion H.
  - destruct (p c) eqn:E; inversion H; subst. now constructor.
  - destruct (nullable r1) eqn:N.
    + inversion H as [| | | ? ? ? H'| ? ? ? H'| |]; subst.
      * inversion H' as [| |? ? s1 s2 H1 H2| | | |]; subst.
        change (String c (s1 ++ s2)) with (String c s1 ++ s2)%string.
        constructor; auto.
      * change (String c s) with ("" ++ String c s)%string.
        constructor; [now apply nullable_matches | auto].
    + inversion H as [| |? ? s1 s2 H1 H2| | | |]; subst.
      change (String c (s1 ++ s2)) with (String c s1 ++ s2)%string.
      constructor; auto.
  - inversion H; subst; [apply MAltL | apply MAltR]; auto.
  - inversion H as [| |? ? s1 s2 H1 H2| | | |]; subst.
    change (String c (s1 ++ s2)) with (String c s1 ++ s2)%string.
    constructor; auto.
Qed.

Lemma deriv_complete (r : regex) (s' : string) :
  matches r s' -> forall c s, s' = String c s -> matches (deriv c r) s.
Proof.
  induction 1 as [|p a Hp|r1 r2 s1 s2 H1 IH1 H2 IH2|r1 r2 s0 H IH
                  |r1 r2 s0 H IH|r|r s1 s2 H1 IH1 H2 IH2];
    intros c s E; simpl.
  - discriminate.
  - injection E as -> <-. rewrite Hp. constructor.
  - destruct s1 as [|a s1]; simpl in E.
    + assert (N : nullable r1 = true) by now apply nullable_matches.
      rewrite N. apply MAltR. now apply IH2.
    + injection E as -> <-.
      destruct (nullable r1); [apply MAltL|]; constructor; auto.
  - apply MAltL. now apply IH.
  - apply MAltR. now apply IH.
  - discriminate.
  - destruct s1 as [|a s1]; simpl in E.
    + now apply IH2.
    + injection E as -> <-. constructor; auto.
Qed.

Lemma accepts_matches (s : string) :
  forall r, accepts r s = true <-> matches r s.
Proof.
  induction s as [|c s IH]; intros r; simpl.
  - apply nullable_matches.
  - rewrite IH. split; [apply deriv_sound|].
    intros H. eapply deriv_complete; eauto.
Qed.

(** ** The languages of the pieces the patterns are made of *)

Lemma matches_cls (p : ascii -> bool) (s : string) :
  matches (Cls p) s <-> exists c, s = String c "" /\ p c = true.
Proof.
  split.
  - intros H. inversion H; subst. eauto.
  - intros (c & -> & H). now constructor.
Qed.

Lemma matches_star_cls (p : ascii -> bool) (s : string) :
  matches (Star (Cls p)) s <-> all_in p s = true.
Proof.
  split.
  - intros H. remember (Star (Cls p)) as r eqn:E.
    induction H; try discriminate; [reflexivity|].
    injection E as ->. apply matches_cls in H as (c & -> & Hc). simpl.
    rewrite IHmatches2 by reflexivity. now rewrite Hc.
  - induction s as [|c s IH]; simpl; intros H; [constructor|].
    apply andb_prop in H as [Hc Hs].
    change (String c s) with (String c "" ++ s)%string.
    constructor; [now constructor | auto].
Qed.

Lemma matches_any (s : string) : matches (Star any_char) s.
Proof.
  apply matches_star_cls. induction s; simpl; auto.
Qed.

Lemma matches_cat (r1 r2 : regex) (s : string) :
  matches (Cat r1 r2) s
  <-> exists s1 s2, s = (s1 ++ s2)%string /\ matches r1 s1 /\ matches r2 s2.
Proof.
  split.
  - intros H. inversion H; subst. eauto.
  - intros (s1 & s2 & -> & H1 & H2). now constructor.
Qed.

Lemma matches_alt (r1 r2 : regex) (s : string) :
  matches (Alt r1 r2) s <-> matches r1 s \/ matches r2 s.
Proof.
  split.
  - intros H. inversion H; subst; auto.
  - intros [H|H]; [apply MAltL | apply MAltR]; auto.
Qed.

Lemma matches_eps (s : string) : matches Eps s <-> s = "".
Proof. split; [intros H; now inversion H | intros ->; constructor]. Qed.

Lemma matches_opt (r : regex) (s : string) :
  matches (Opt r) s <-> matches r s \/ s = "".
Proof. unfold Opt. now rewrite matches_alt, matches_eps. Qed.

(** A literal matches the strings equal to it, up to case under
    [re.IGNORECASE]. *)
Lemma matches_lit_ci (p s : string) :
  matches (lit true p) s <-> lower s = lower p.
Proof.
  revert s. induction p as [|a p IH]; intros s; simpl.
  - rewrite matches_eps. destruct s; simpl; split; congruence.
  - rewrite matches_cat. split.
    + intros (s1 & s2 & -> & H1 & H2). apply IH in H2.
      unfold chr in H1. apply matches_cls in H1 as (c & -> & Hc).
      apply Ascii.eqb_eq in Hc. simpl. congruence.
    + destruct s as [|c s]; simpl; intros E; [discriminate|].
      injection E as Hc Hs. exists (String c ""), s. repeat split.
      * unfold chr. constructor. now apply Ascii.eqb_eq.
      * now apply IH.
Qed.

End Matcher.

(* ================================================================== *)
(** * Numbers, trimmed texts and level names *)

Section Texts.

Lemma drop_final_all_in (p : ascii -> bool) (c : ascii) (s : string) :
  p c = false -> all_in p s = true -> drop_final c s = s.
Proof.
  intros Hc. induction s as [|a s IH]; [reflexivity|].
  intros [Ha Hs]%andb_prop. cbn [drop_final].
  destruct s as [|b s].
  - destruct (Ascii.eqb_spec a c) as [->|]; [congruence | reflexivity].
  - now rewrite IH.
Qed.

Lemma drop_final_snoc (c : ascii) (s : string) :
  drop_final c (s ++ String c "") = s.
Proof.
  induction s as [|a s IH]; simpl.
  - now rewrite Ascii.eqb_refl.
  - destruct (s ++ String c "")%string eqn:E.
    + destruct s; discriminate.
    + now rewrite IH.
Qed.

Lemma drop_final_cases (c : ascii) (s : string) :
  drop_final c s = s \/ s = (drop_final c s ++ String c "")%string.
Proof.
  induction s as [|a s IH]; [now left|]. cbn [drop_final].
  destruct s as [|b s].
  - destruct (Ascii.eqb_spec a c) as [->|]; [now right | now left].
  - destruct IH as [IH|IH]; [left | right]; simpl in *; congruence.
Qed.

(** The pattern [\d+\.?] matches the numbers with an optional dot. *)
Lemma number_pattern (s : string) :
  re_fullmatch (Cat (Plus (Cls is_digit)) (Opt (chr false "."))) s
  = number_with_dot s.
Proof.
  apply eq_true_iff_eq. unfold re_fullmatch, number_with_dot, digits.
  rewrite accepts_matches, matches_cat. unfold Plus. split.
  - intros (s1 & s2 & -> & H1 & H2).
    apply matches_cat in H1 as (d & ds & -> & Hd & Hds).
    apply matches_cls in Hd as (c & -> & Hc).
    apply matches_star_cls in Hds.
    assert (Hall : all_digits (String c "" ++ ds) = true).
    { unfold all_digits. simpl. now rewrite Hc, Hds. }
    apply matches_opt in H2 as [H2| ->].
    + unfold chr in H2. apply matches_cls in H2 as (a & -> & ->%Ascii.eqb_eq).
      rewrite drop_final_snoc. now rewrite Hall.
    + rewrite append_nil_r.
      rewrite (drop_final_all_in is_digit "."); [|reflexivity|exact Hall].
      now rewrite Hall.
  - intros [Hne Hall]%andb_prop.
    destruct (drop_final "." s) as [|c ds] eqn:E; [discriminate|].
    unfold all_digits in Hall. simpl in Hall.
    apply andb_prop in Hall as [Hc Hds].
    assert (M : matches (Cat (Cls is_digit) (Star (Cls is_digit))) (String c ds)).
    { change (String c ds) with (String c "" ++ ds)%string.
      constructor; [now constructor | now apply matches_star_cls]. }
    destruct (drop_final_cases "." s) as [H|H]; rewrite E in H.
    + exists (String c ds), "". rewrite append_nil_r. repeat split; auto.
      apply matches_opt. now right.
    + exists (String c ds), ".". repeat split; auto.
      apply matches_opt. left. unfold chr. now constructor.
Qed.

(** ** Trimmed strings *)

Lemma head_ok_lstrip (s : string) : head_ok (lstrip_by is_space s).
Proof.
  induction s as [|c s IH]; simpl; [exact I|].
  destruct (is_space c) eqn:E; [exact IH | exact E].
Qed.

Lemma lstrip_head_ok (s : string) : head_ok s -> lstrip_by is_space s = s.
Proof. destruct s as [|c s]; simpl; [auto | now intros ->]. Qed.

Lemma head_ok_rstrip (p : ascii -> bool) (s : string) :
  head_ok s -> head_ok (rstrip_by p s).
Proof.
  destruct s as [|c s]; simpl; [auto|]. intros H.
  destruct (rstrip_by p s); [destruct (p c)|]; simpl; auto.
Qed.

Lemma head_ok_collapse (s : string) :
  head_ok s -> head_ok (collapse_spaces s).
Proof.
  unfold collapse_spaces. destruct s as [|c s]; simpl; [auto|].
  intros H. now rewrite H.
Qed.

Lemma head_ok_app (s1 s2 : string) :
  s1 <> "" -> head_ok s1 -> head_ok (s1 ++ s2).
Proof. destruct s1; simpl; [congruence | auto]. Qed.

Lemma rstrip_rstrip (p q : ascii -> bool) (s : string) :
  (forall c, q c = true -> p c = true) ->
  rstrip_by q (rstrip_by p s) = rstrip_by p s.
Proof.
  intros Hqp. induction s as [|c s IH]; [reflexivity|]. cbn [rstrip_by].
  destruct (rstrip_by p s) as [|a r] eqn:E.
  - destruct (p c) eqn:Hp; [reflexivity|]. simpl.
    destruct (q c) eqn:Hq; [|reflexivity]. apply Hqp in Hq. congruence.
  - cbn [rstrip_by]. cbn [rstrip_by] in IH. now rewrite IH.
Qed.

Lemma rstrip_app (p : ascii -> bool) (s1 s2 : string) :
  s2 <> "" -> rstrip_by p s2 = s2 -> rstrip_by p (s1 ++ s2) = (s1 ++ s2)%string.
Proof.
  intros Hne H. induction s1 as [|c s1 IH]; simpl; [exact H|].
  rewrite IH. destruct (s1 ++ s2)%string eqn:E; [|reflexivity].
  apply append_eq_nil in E as [_ ->]. congruence.
Qed.

Lemma trimmed_strip (s : string) : trimmed s -> strip s = s.
Proof. intros [Hl Hr]. unfold strip. now rewrite Hl. Qed.

Lemma clean_heading_text_trimmed (s : string) : trimmed (clean_heading_text s).
Proof.
  unfold clean_heading_text, trimmed. split.
  - apply lstrip_head_ok, head_ok_rstrip, head_ok_collapse.
    unfold strip. apply head_ok_rstrip, head_ok_lstrip.
  - apply rstrip_rstrip. intros c Hc. unfold is_trailer. now rewrite Hc.
Qed.

Lemma join_trimmed (l : list string) :
  l <> [] -> Forall (fun s => s <> "" /\ trimmed s) l ->
  join " " l <> "" /\ trimmed (join " " l).
Proof.
  induction l as [|x l IH]; intros Hne Hall; [congruence|].
  inversion Hall as [|? ? [Hx [Hxl Hxr]] Hl]; subst.
  destruct l as [|x' l]; [simpl; repeat split; assumption|].
  rewrite join_cons2. destruct IH as [Hj [Hjl Hjr]]; [congruence | assumption |].
  split; [|split].
  - destruct x; [congruence | discriminate].
  - apply lstrip_head_ok, head_ok_app; [assumption|].
    rewrite <- Hxl. apply head_ok_lstrip.
  - apply rstrip_app.
    + discriminate.
    + apply (rstrip_app _ " "); assumption.
Qed.

End Texts.

(* ================================================================== *)
(** * The lines and levels the filter receives *)

Section FilterInput.

Lemma length_not_lt_3 (s : string) :
  (String.length s <? 3)%nat = false -> s <> "".
Proof. destruct s; [discriminate | congruence]. Qed.

Lemma collect_raw_lines_trimmed (pdf_doc : PdfDoc) :
  Forall (fun l => text l <> "" /\ trimmed (text l)) (collect_raw_lines pdf_doc).
Proof.
  apply Forall_forall. intros l Hin. unfold collect_raw_lines in Hin.
  apply in_flat_map in Hin as ([n p] & _ & Hin). unfold page_lines in Hin.
  apply in_flat_map in Hin as (span & _ & Hin).
  destruct (String.length (clean_heading_text (span_text span)) <? 3)%nat eqn:E;
    [destruct Hin|].
  destruct Hin as [<-|[]]. simpl. split.
  - now apply length_not_lt_3.
  - apply clean_heading_text_trimmed.
Qed.

Lemma flush_block_trimmed (b : block) :
  Forall (fun l => text l <> "" /\ trimmed (text l)) (block_lines b) ->
  trimmed (text (flush_block b)).
Proof.
  intros H.
  change (text (flush_block b)) with (join " " (map text (block_lines b))).
  apply join_trimmed; [discriminate|].
  apply Forall_map. exact H.
Qed.

(** The merged lines of a document, with what the filter relies on:
    their texts are trimmed. *)
Lemma merged_lines_trimmed (pdf_doc : PdfDoc) :
  exists merged_lines,
    merge_multiline_headings (collect_raw_lines pdf_doc) = Ok merged_lines
    /\ Forall (fun l => trimmed (text l)) merged_lines.
Proof.
  destruct (merge_blocks (collect_raw_lines pdf_doc)) as (bs & Hm & Hc & _ & _).
  exists (map flush_block bs). split; [exact Hm|].
  apply Forall_map, Forall_forall. intros b Hb. apply flush_block_trimmed.
  apply Forall_forall. intros l Hl.
  pose proof (collect_raw_lines_trimmed pdf_doc) as Hall.
  rewrite Forall_forall in Hall. apply Hall. rewrite <- Hc.
  apply in_flat_map. eauto.
Qed.

(** ** The names of the levels are not empty *)

Lemma dict_set_named levels k v : named levels -> v <> "" -> named (dict_set levels k v).
Proof.
  unfold named. induction levels as [|[k' v'] levels IH]; simpl; intros H Hv.
  - constructor; [exact Hv | constructor].
  - inversion H; subst. destruct (PrimFloat.eqb k' k); constructor; auto.
Qed.

Lemma dict_get_named levels k v : named levels -> dict_get levels k = Some v -> v <> "".
Proof.
  unfold named. induction levels as [|[k' v'] levels IH]; simpl; intros H E.
  - discriminate.
  - inversion H; subst. destruct (PrimFloat.eqb k' k); [|auto].
    injection E as <-. assumption.
Qed.

Lemma group_font_sizes_named set_iter font_sizes :
  named (group_font_sizes set_iter font_sizes).
Proof.
  unfold group_font_sizes.
  generalize (enumerate 0 (firstn 3
    (sort_desc PrimFloat.ltb (set_iter (set_of font_sizes))))).
  intros l. assert (H : named []) by constructor. revert H.
  generalize (@nil (float * string)). induction l as [|[idx sz] l IH]; intros d H.
  - exact H.
  - simpl. apply IH. apply dict_set_named; [exact H | discriminate].
Qed.

(** On a trimmed text and named levels the loop decides as the
    specification words it. *)
Lemma step_heading_heading_of levels line :
  named levels -> trimmed (text line) ->
  step_heading levels line = heading_of levels line.
Proof.
  intros Hn Ht. unfold step_heading, heading_of.
  destruct (dict_get levels (size line)) as [level|] eqn:E; [|reflexivity].
  apply (dict_get_named _ _ _ Hn) in E. apply String.eqb_neq in E. rewrite E.
  unfold is_table_header, is_number_only.
  rewrite (trimmed_strip _ Ht), number_pattern.
  destruct (str_in (lower (text line)) table_headers),
    (number_with_dot (text line)); reflexivity.
Qed.

Lemma choose_ext {A B} (f g : A -> option B) (l : list A) :
  Forall (fun x => f x = g x) l -> choose f l = choose g l.
Proof. induction 1 as [|x l E _ IH]; simpl; [reflexivity | now rewrite E, IH]. Qed.

(** The whole of [extract_headings_from_pdf]: merge, map the sizes to
    levels, keep the first heading of every key among the accepted
    lines. *)
Lemma extract_headings_spec set_iter (pdf_doc : PdfDoc) :
  exists merged_lines,
    merge_multiline_headings (collect_raw_lines pdf_doc) = Ok merged_lines
    /\ extract_headings_from_pdf set_iter pdf_doc
       = Ok (first_by_key
               (choose (heading_of (group_font_sizes set_iter
                                      (map size merged_lines)))
                       merged_lines)).
Proof.
  destruct (merged_lines_trimmed pdf_doc) as (ms & Hm & Ht).
  exists ms. split; [exact Hm|].
  unfold extract_headings_from_pdf. rewrite Hm. simpl bind.
  rewrite filter_headings_first_by_key. do 2 f_equal.
  apply choose_ext. eapply Forall_impl; [|exact Ht].
  intros l Hl. apply step_heading_heading_of; [|exact Hl].
  apply group_font_sizes_named.
Qed.

Lemma number_with_dot_spec (s : string) :
  number_with_dot s = true
  <-> exists ds, ds <> "" /\ all_digits ds = true
                 /\ (s = ds \/ s = (ds ++ ".")%string).
Proof.
  unfold number_with_dot, digits. split.
  - intros [Hne Hall]%andb_prop. exists (drop_final "." s).
    apply negb_true_iff, String.eqb_neq in Hne.
    repeat split; try assumption.
    destruct (drop_final_cases "." s); auto.
  - intros (ds & Hne & Hall & [->| ->]).
    + rewrite (drop_final_all_in is_digit "."); [|reflexivity|exact Hall].
      apply String.eqb_neq in Hne. now rewrite Hne, Hall.
    + rewrite drop_final_snoc. apply String.eqb_neq in Hne.
      now rewrite Hne, Hall.
Qed.

End FilterInput.

(* ================================================================== *)
(** * The heading filter: what is emitted *)

Section FilterProperties.
Variable set_iter : list float -> list float.


(** The rejections and the acceptance the specification lists: "12." and
    "Name" give no heading whatever their level, a bold "Revenue Growth"
    of the second size does. *)
Example filter_rejections :
  let levels := [(24, "H1"); (18, "H2")]%float in
  heading_step levels (mkFilterState [] []) (mkLine 1 "12." 24 true 50)
  = mkFilterState [] []
  /\ heading_step levels (mkFilterState [] []) (mkLine 1 "Name" 24 true 50)
     = mkFilterState [] []
  /\ heading_step levels (mkFilterState [] [])
                  (mkLine 3 "Revenue Growth" 18 true 400)
     = mkFilterState [mkHeading "H2" "Revenue Growth" 3]
                     [("H2", "revenue growth", 3%Z)].
Proof. repeat split. Qed.

(** Two lines with one key give one heading, the first. *)
Example duplicate_suppressed :
  filter_headings [(24, "H1")]%float
    [mkLine 2 "Overview" 24 false 300; mkLine 2 "OVERVIEW" 24 true 500]
  = [mkHeading "H1" "Overview" 2].
Proof. reflexivity. Qed.

(** C5.  No two headings of the output share the key (level, lowercased
    text, page); the heading kept for a key is the first accepted line
    with that key; and the output lists the accepted lines in traversal
    order, with the later duplicates left out. *)
Theorem headings_unique_first_in_order (pdf_doc : PdfDoc) :
  exists merged_lines hs,
    merge_multiline_headings (collect_raw_lines pdf_doc) = Ok merged_lines
    /\ extract_headings_from_pdf set_iter pdf_doc = Ok hs
    /\ let candidates :=
         choose (heading_of (group_font_sizes set_iter (map size merged_lines)))
                merged_lines in
       NoDup (map heading_key hs)
       /\ subseq hs candidates
       /\ (forall h, In h candidates ->
             exists h', In h' hs /\ heading_key h' = heading_key h)
       /\ (forall h, In h hs ->
             exists pre post,
               candidates = pre ++ h :: post
               /\ forall h', In h' pre -> heading_key h' <> heading_key h).
Proof.
  destruct (extract_headings_spec set_iter pdf_doc) as (ms & Hm & He).
  exists ms. eexists. split; [exact Hm|]. split; [exact He|]. cbv zeta.
  repeat split.
  - apply first_by_key_NoDup.
  - apply first_by_key_subseq.
  - apply first_by_key_covers.
  - apply first_by_key_first.
Qed.

End FilterProperties.

(* ================================================================== *)
(** * Sorting the set of sizes *)

Section SortedSizes.
Local Open Scope float_scope.

Lemma insert_desc_perm {A} (lt : A -> A -> bool) (x : A) (l : list A) :
  Permutation (insert_desc lt x l) (x :: l).
Proof.
  induction l as [|a l IH]; simpl; [reflexivity|].
  destruct (lt x a); [|reflexivity].
  rewrite IH. apply perm_swap.
Qed.

Lemma sort_desc_perm {A} (lt : A -> A -> bool) (l : list A) :
  Permutation (sort_desc lt l) l.
Proof.
  induction l as [|a l IH]; simpl; [reflexivity|].
  rewrite insert_desc_perm. now constructor.
Qed.

Lemma distinct_perm (l l' : list float) :
  Permutation l l' -> distinct l -> distinct l'.
Proof.
  induction 1 as [|x l l' HP IH|x x' l|l l' l'' _ IH1 _ IH2]; simpl.
  - auto.
  - intros [Hx Hl]. split; [|auto]. eapply Permutation_Forall; eauto.
  - intros [Hx [Hx' Hl]]. inversion Hx as [|? ? Hxx' Hxl]; subst.
    repeat split; auto. constructor; [|assumption].
    now rewrite eqb_sym.
  - auto.
Qed.

Lemma insert_desc_descending (x : float) (l : list float) :
  descending l -> is_number x = true -> numbers l ->
  Forall (fun x' => (x =? x') = false) l ->
  descending (insert_desc PrimFloat.ltb x l).
Proof.
  unfold descending, numbers.
  induction l as [|a l IH]; simpl; intros Hs Hx Hn Hd.
  - repeat constructor.
  - inversion Hs as [|? ? Hs' Ha]; subst.
    inversion Hn as [|? ? Hna Hn']; subst.
    inversion Hd as [|? ? Hxa Hd']; subst.
    destruct (x <? a) eqn:E.
    + constructor; [now apply IH|].
      eapply Permutation_Forall;
        [symmetry; apply insert_desc_perm|].
      constructor; assumption.
    + assert (Hax : (a <? x) = true).
      { destruct (float_trichotomy x a Hx Hna) as [H|[H|H]]; congruence. }
      constructor; [constructor; assumption|].
      constructor; [exact Hax|].
      eapply Forall_impl; [|exact Ha]. intros z Hz. simpl in Hz.
      eapply ltb_trans; eauto.
Qed.

Lemma sort_desc_descending (l : list float) :
  numbers l -> distinct l -> descending (sort_desc PrimFloat.ltb l).
Proof.
  induction l as [|x l IH]; simpl; intros Hn Hd.
  - constructor.
  - inversion Hn; subst. destruct Hd as [Hx Hd].
    apply insert_desc_descending; auto.
    + eapply Permutation_Forall; [symmetry; apply sort_desc_perm | assumption].
    + eapply Permutation_Forall; [symmetry; apply sort_desc_perm | assumption].
Qed.

Lemma descending_unique (l1 : list float) :
  forall l2, descending l1 -> descending l2 -> Permutation l1 l2 -> l1 = l2.
Proof.
  unfold descending.
  induction l1 as [|x l1 IH]; intros l2 H1 H2 HP.
  - apply Permutation_nil in HP. congruence.
  - destruct l2 as [|x' l2];
      [apply Permutation_sym, Permutation_nil in HP; discriminate|].
    inversion H1 as [|? ? H1' Hx]; subst.
    inversion H2 as [|? ? H2' Hx']; subst.
    assert (E : x = x').
    { assert (I1 : In x (x' :: l2))
        by (eapply Permutation_in; [exact HP | now left]).
      assert (I2 : In x' (x :: l1))
        by (eapply Permutation_in; [symmetry; exact HP | now left]).
      destruct I1 as [->|I1]; [reflexivity|].
      destruct I2 as [->|I2]; [reflexivity|].
      rewrite Forall_forall in Hx, Hx'.
      apply Hx in I2. apply Hx' in I1. apply ltb_asym in I1. congruence. }
    subst x'. f_equal. apply IH; auto.
    eapply Permutation_cons_inv. exact HP.
Qed.

(** ** The set of a list of sizes *)

Lemma set_of_incl (l : list float) (x : float) : In x (set_of l) -> In x l.
Proof.
  revert x. induction l as [|a l IH]; simpl; [tauto|].
  intros x [->|H]; [now left|]. right. apply IH.
  apply filter_In in H. tauto.
Qed.

Lemma set_of_distinct (l : list float) : distinct (set_of l).
Proof.
  induction l as [|a l IH]; simpl; [exact I|]. split.
  - apply Forall_forall. intros x [_ H]%filter_In.
    unfold float_neq in H. apply negb_true_iff in H. now rewrite eqb_sym.
  - clear -IH. induction (set_of l) as [|b s IHs]; simpl; [exact I|].
    destruct IH as [Hb Hs]. destruct (float_neq b a); simpl; [|auto].
    split; [|auto]. apply Forall_forall. intros x [Hx _]%filter_In.
    rewrite Forall_forall in Hb. auto.
Qed.

Lemma set_of_numbers (l : list float) : numbers l -> numbers (set_of l).
Proof.
  unfold numbers. rewrite !Forall_forall. intros H x Hx.
  apply H. now apply set_of_incl.
Qed.

Lemma set_of_covers (l : list float) (x : float) :
  is_number x = true -> In x l ->
  exists x', In x' (set_of l) /\ (x =? x') = true.
Proof.
  intros Hx. induction l as [|a l IH]; simpl; [tauto|].
  intros [->|H]; [exists x; auto|].
  destruct (IH H) as (x' & Hin & E).
  destruct (x' =? a) eqn:Ea.
  - exists a. split; [now left|].
    rewrite (eqb_eqb_l _ _ a E). exact Ea.
  - exists x'. split; [|exact E]. right. apply filter_In.
    split; [exact Hin|]. unfold float_neq. now rewrite Ea.
Qed.

(** Whatever the order of iteration, the sorted sizes are the same. *)
Lemma sort_desc_set_iter set_iter (font_sizes : list float) :
  iterates set_iter -> numbers font_sizes ->
  sort_desc PrimFloat.ltb (set_iter (set_of font_sizes))
  = sort_desc PrimFloat.ltb (set_of font_sizes)
  /\ descending (sort_desc PrimFloat.ltb (set_of font_sizes)).
Proof.
  intros HI Hn.
  pose proof (set_of_numbers _ Hn) as Hn'.
  pose proof (set_of_distinct font_sizes) as Hd.
  assert (D : descending (sort_desc PrimFloat.ltb (set_of font_sizes)))
    by now apply sort_desc_descending.
  split; [|exact D]. apply descending_unique; [|exact D|].
  - apply sort_desc_descending.
    + eapply Permutation_Forall; [symmetry; apply HI | exact Hn'].
    + eapply distinct_perm; [symmetry; apply HI | exact Hd].
  - rewrite !sort_desc_perm. apply HI.
Qed.

End SortedSizes.

(* ================================================================== *)
(** * The level map *)

Section LevelMap.
Local Open Scope float_scope.

Lemma descending_app (l1 l2 : list float) :
  descending (l1 ++ l2) ->
  descending l1
  /\ forall a b, In a l1 -> In b l2 -> (b <? a) = true.
Proof.
  unfold descending. induction l1 as [|x l1 IH]; simpl; intros H.
  - split; [constructor | intros ? ? []].
  - inversion H as [|? ? H' Hx]; subst. destruct (IH H') as [Hs Hab].
    apply Forall_app in Hx as [Hx1 Hx2]. split.
    + constructor; assumption.
    + intros a b [<-|Ha] Hb; [|auto].
      rewrite Forall_forall in Hx2. auto.
Qed.

(** The dictionary built from at most three descending sizes. *)
Lemma levels_of_top (top : list float) :
  descending top -> (List.length top <= 3)%nat ->
  fold_left (fun heading_map '(idx, size) =>
               dict_set heading_map size (level_name idx))
            (enumerate 0 top) []
  = combine top ["H1"; "H2"; "H3"]%string.
Proof.
  unfold descending. intros Hs Hl.
  destruct top as [|a [|b [|c [|d top]]]]; simpl in Hl; try lia;
    try reflexivity.
  - inversion Hs as [|? ? _ Ha]; subst. inversion Ha as [|? ? Hba _]; subst.
    apply ltb_neq in Hba. rewrite eqb_sym in Hba.
    simpl. now rewrite Hba.
  - inversion Hs as [|? ? Hs' Ha]; subst.
    inversion Ha as [|? ? Hba Ha']; subst. inversion Ha' as [|? ? Hca _]; subst.
    inversion Hs' as [|? ? _ Hb]; subst. inversion Hb as [|? ? Hcb _]; subst.
    apply ltb_neq in Hba, Hca, Hcb. rewrite eqb_sym in Hba, Hca, Hcb.
    simpl. rewrite Hba. simpl. now rewrite Hca, Hcb.
Qed.

Lemma group_font_sizes_top set_iter (font_sizes : list float) :
  iterates set_iter -> numbers font_sizes ->
  group_font_sizes set_iter font_sizes
  = combine (firstn 3 (sort_desc PrimFloat.ltb (set_of font_sizes)))
            ["H1"; "H2"; "H3"]%string
  /\ descending (firstn 3 (sort_desc PrimFloat.ltb (set_of font_sizes))).
Proof.
  intros HI Hn. destruct (sort_desc_set_iter _ _ HI Hn) as [E D].
  unfold group_font_sizes. rewrite E.
  rewrite <- (firstn_skipn 3 (sort_desc PrimFloat.ltb (set_of font_sizes))) in D.
  apply descending_app in D as [D _]. split; [|exact D].
  apply levels_of_top; [exact D|]. apply firstn_le_length.
Qed.

(** C4.  The level map pairs the up-to-three largest distinct sizes of
    the merged lines, in descending order, with "H1", "H2", "H3": its
    keys are sizes of the input, strictly descending, as many as there
    are distinct sizes but at most three, and every size of the input
    equals one of them or is smaller than all three.  No size gives the
    empty map, with which the filter emits nothing.  The sizes
    [24,24,18,18,12,12,10] give {24:H1, 18:H2, 12:H3}, and the loop
    skips every line of size 10. *)
Theorem level_map_top_three set_iter :
  iterates set_iter ->
  (forall font_sizes,
      numbers font_sizes ->
      let top := firstn 3 (sort_desc PrimFloat.ltb (set_of font_sizes)) in
      group_font_sizes set_iter font_sizes
      = combine top ["H1"; "H2"; "H3"]%string
      /\ descending top
      /\ List.length top = Nat.min 3 (List.length (set_of font_sizes))
      /\ (forall x, In x top -> In x font_sizes)
      /\ (forall s, In s font_sizes ->
            (exists t, In t top /\ (s =? t) = true)
            \/ (List.length top = 3%nat
                /\ forall t, In t top -> (s <? t) = true)))
  /\ (group_font_sizes set_iter [] = []
      /\ forall merged_lines, filter_headings [] merged_lines = [])
  /\ (let levels := group_font_sizes set_iter [24; 24; 18; 18; 12; 12; 10] in
      levels = [(24, "H1"); (18, "H2"); (12, "H3")]%string
      /\ forall st line, size line = 10 -> heading_step levels st line = st).
Proof.
  intros HI. split; [|split].
  - intros font_sizes Hn top.
    destruct (group_font_sizes_top _ _ HI Hn) as [E D]. fold top in E, D.
    pose proof (sort_desc_set_iter _ _ HI Hn) as [_ DS].
    split; [exact E|]. split; [exact D|]. split; [|split].
    + unfold top. rewrite length_firstn.
      now rewrite (Permutation_length (sort_desc_perm _ _)).
    + intros x Hx. apply set_of_incl.
      eapply Permutation_in; [apply sort_desc_perm|].
      rewrite <- (firstn_skipn 3 (sort_desc PrimFloat.ltb (set_of font_sizes))).
      apply in_or_app. now left.
    + intros s Hs.
      assert (Hnum : is_number s = true).
      { unfold numbers in Hn. rewrite Forall_forall in Hn. auto. }
      destruct (set_of_covers _ _ Hnum Hs) as (z & Hz & Esz).
      apply (Permutation_in _ (Permutation_sym (sort_desc_perm PrimFloat.ltb _)))
        in Hz.
      rewrite <- (firstn_skipn 3 (sort_desc PrimFloat.ltb (set_of font_sizes)))
        in Hz, DS.
      apply in_app_or in Hz as [Hz|Hz]; [left; eauto|]. right.
      apply descending_app in DS as [_ DS]. split.
      * unfold top. rewrite length_firstn.
        destruct (skipn 3 (sort_desc PrimFloat.ltb (set_of font_sizes))) eqn:K;
          [destruct Hz|].
        pose proof (length_skipn 3
                      (sort_desc PrimFloat.ltb (set_of font_sizes))) as L.
        rewrite K in L. simpl in L. lia.
      * intros t Ht. rewrite (eqb_ltb_l _ _ t Esz). now apply DS.
  - split; [|reflexivity].
    unfold group_font_sizes. simpl set_of.
    pose proof (HI []) as P. apply Permutation_sym, Permutation_nil in P.
    now rewrite P.
  - cbv zeta.
    assert (Hn : numbers [24; 24; 18; 18; 12; 12; 10])
      by (repeat constructor).
    destruct (group_font_sizes_top _ _ HI Hn) as [E _].
    rewrite E. split; [reflexivity|].
    intros st line Hline. apply heading_step_none.
    unfold step_heading. rewrite Hline. reflexivity.
Qed.

(** [level_map_top_three] with the set iterated backwards. *)
Lemma level_map_top_three_rev :
  group_font_sizes (@rev float) [12; 24; 18; 24]
  = [(24, "H1"); (18, "H2"); (12, "H3")]%string.
Proof.
  assert (HI : iterates (@rev float))
    by (intros s; apply Permutation_sym, Permutation_rev).
  destruct (level_map_top_three (@rev float) HI) as [H _].
  destruct (H [12; 24; 18; 24]) as [E _]; [repeat constructor|].
  rewrite E. reflexivity.
Defined.

End LevelMap.

(* ================================================================== *)
(** * Generic titles *)

Section GenericTitle.

Lemma prefix_iff (p s : string) :
  prefix p s = true <-> exists r, s = (p ++ r)%string.
Proof.
  revert s. induction p as [|a p IH]; intros s.
  - destruct s; simpl; split; eauto.
  - destruct s as [|b s]; simpl.
    + split; [discriminate | intros (r & E); discriminate].
    + destruct (ascii_dec a b) as [->|N].
      * rewrite IH. split; intros (r & E); exists r; congruence.
      * split; [discriminate | intros (r & E); congruence].
Qed.

Lemma suffix_iff (p s : string) :
  suffix p s = true <-> exists pre, s = (pre ++ p)%string.
Proof.
  induction s as [|b s IH]; cbn [suffix].
  - rewrite orb_false_r, String.eqb_eq. split.
    + intros ->. now exists "".
    + intros (pre & E). symmetry in E. apply append_eq_nil in E. tauto.
  - rewrite orb_true_iff, String.eqb_eq, IH. split.
    + intros [->|(pre & ->)]; [now exists "" | now exists (String b pre)].
    + intros ([|a pre] & E); simpl in E; [now left|].
      right. injection E as -> ->. eauto.
Qed.

Lemma lower_app (s1 s2 : string) :
  lower (s1 ++ s2) = (lower s1 ++ lower s2)%string.
Proof. induction s1; simpl; congruence. Qed.

Lemma lower_split (a b t : string) :
  lower t = (a ++ b)%string ->
  exists s1 s2, t = (s1 ++ s2)%string /\ lower s1 = a /\ lower s2 = b.
Proof.
  revert t. induction a as [|c a IH]; intros t E; simpl in E.
  - now exists "", t.
  - destruct t as [|d t]; simpl in E; [discriminate|].
    injection E as Hc E. destruct (IH _ E) as (s1 & s2 & -> & <- & <-).
    exists (String d s1), s2. simpl. now rewrite Hc.
Qed.

Lemma lower_length (s : string) : String.length (lower s) = String.length s.
Proof. induction s; simpl; congruence. Qed.

Lemma ci_prefix_iff (p t : string) :
  ci_prefix p t = true
  <-> exists m r, t = (m ++ r)%string /\ lower m = lower p.
Proof.
  unfold ci_prefix. rewrite prefix_iff. split.
  - intros (r & E). apply lower_split in E as (m & r' & -> & Hm & _). eauto.
  - intros (m & r & -> & Hm). exists (lower r). now rewrite lower_app, Hm.
Qed.

Lemma ci_suffix_iff (p t : string) :
  ci_suffix p t = true
  <-> exists pre m, t = (pre ++ m)%string /\ lower m = lower p.
Proof.
  unfold ci_suffix. rewrite suffix_iff. split.
  - intros (r & E). apply lower_split in E as (pre & m & -> & _ & Hm). eauto.
  - intros (pre & m & -> & Hm). exists (lower pre). now rewrite lower_app, Hm.
Qed.

(** ** Searching with anchors *)

Lemma search_from_start (r : regex) (t : string) :
  re_search (mkPattern true r false) t = true
  <-> exists m post, t = (m ++ post)%string /\ matches r m.
Proof.
  unfold re_search. simpl. rewrite accepts_matches, matches_cat. split.
  - intros (e & s & -> & He & Hs). apply matches_eps in He as ->.
    apply matches_cat in Hs as (m & post & -> & Hm & _).
    exists m, post. split; [reflexivity | exact Hm].
  - intros (m & post & -> & Hm). exists "", (m ++ post)%string.
    repeat split; [constructor|]. constructor; [exact Hm | apply matches_any].
Qed.

Lemma matches_at_end (e : string) :
  matches at_end e <-> e = "" \/ e = String "010" "".
Proof.
  unfold at_end. rewrite matches_opt, matches_cls. split.
  - intros [(c & -> & ->%Ascii.eqb_eq)| ->]; auto.
  - intros [->| ->]; [now right | left]. now exists "010"%char.
Qed.

Lemma search_to_end (b : bool) (r : regex) (t : string) :
  re_search (mkPattern b r true) t = true
  <-> exists pre m e,
        t = (pre ++ m ++ e)%string /\ (b = true -> pre = "")
        /\ matches r m /\ (e = "" \/ e = String "010" "").
Proof.
  unfold re_search. simpl. rewrite accepts_matches, matches_cat. split.
  - intros (pre & s & -> & Hp & Hs).
    apply matches_cat in Hs as (m & e & -> & Hm & He%matches_at_end).
    exists pre, m, e. repeat split; auto.
    intros ->. now apply matches_eps in Hp.
  - intros (pre & m & e & -> & Hb & Hm & He).
    exists pre, (m ++ e)%string. repeat split.
    + destruct b; [rewrite Hb by reflexivity; constructor | apply matches_any].
    + constructor; [exact Hm | now apply matches_at_end].
Qed.

Lemma drop_final_app (c : ascii) (a b : string) :
  b <> "" -> drop_final c (a ++ b) = (a ++ drop_final c b)%string.
Proof.
  intros Hb. induction a as [|d a IH]; [reflexivity|]. simpl.
  rewrite IH. destruct (a ++ b)%string eqn:E; [|reflexivity].
  apply append_eq_nil in E as [_ ->]. congruence.
Qed.

Lemma chomp_free (pre m : string) :
  m <> "" -> newline_free m = true -> chomp (pre ++ m) = (pre ++ m)%string.
Proof.
  intros Hm Hf. unfold chomp. rewrite drop_final_app by assumption.
  f_equal. apply (drop_final_all_in (fun a => negb (Ascii.eqb a "010")));
    [reflexivity | exact Hf].
Qed.

Lemma newline_free_lower (m : string) :
  newline_free (lower m) = true -> newline_free m = true.
Proof.
  unfold newline_free. induction m as [|a m IH]; simpl; [auto|].
  intros [Ha Hm]%andb_prop. rewrite IH by assumption.
  destruct (Ascii.eqb_spec a "010") as [->|]; [discriminate | reflexivity].
Qed.

Lemma newline_free_app (s1 s2 : string) :
  newline_free (s1 ++ s2) = newline_free s1 && newline_free s2.
Proof.
  unfold newline_free. induction s1 as [|a s1 IH]; simpl; [reflexivity|].
  now rewrite IH, andb_assoc.
Qed.

(** A pattern that ends in [$], whose body matches no empty string and
    no string with a newline, is searched in the title without its final
    newline. *)
Lemma search_chomp (b : bool) (r : regex) (t : string) :
  (forall m, matches r m -> m <> "" /\ newline_free m = true) ->
  (re_search (mkPattern b r true) t = true
   <-> exists pre m,
         chomp t = (pre ++ m)%string /\ (b = true -> pre = "") /\ matches r m).
Proof.
  intros Hr. rewrite search_to_end. split.
  - intros (pre & m & e & -> & Hb & Hm & He). exists pre, m.
    destruct (Hr m Hm) as [Hne Hf]. repeat split; auto.
    destruct He as [->| ->].
    + rewrite append_nil_r. now apply chomp_free.
    + rewrite <- append_assoc. apply drop_final_snoc.
  - intros (pre & m & E & Hb & Hm).
    destruct (drop_final_cases "010" t) as [H|H]; fold (chomp t) in H.
    + exists pre, m, "". rewrite append_nil_r. repeat split; auto. congruence.
    + exists pre, m, (String "010" ""). repeat split; auto.
      rewrite H, E. now rewrite append_assoc.
Qed.

(** ** The five patterns *)

Lemma search_ci_prefix (p t : string) :
  re_search (mkPattern true (lit true p) false) t = ci_prefix p t.
Proof.
  apply eq_true_iff_eq. rewrite search_from_start, ci_prefix_iff.
  split; intros (m & r & -> & H); exists m, r; split; auto;
    now apply matches_lit_ci.
Qed.

Lemma lit_ci_free (p m : string) :
  p <> "" -> newline_free (lower p) = true ->
  lower m = lower p -> m <> "" /\ newline_free m = true.
Proof.
  intros Hp Hf E. split.
  - intros ->. destruct p; [congruence | discriminate].
  - apply newline_free_lower. now rewrite E.
Qed.

Lemma search_ci_suffix (p t : string) :
  p <> "" -> newline_free (lower p) = true ->
  re_search (mkPattern false (lit true p) true) t = ci_suffix p (chomp t).
Proof.
  intros Hp Hf. apply eq_true_iff_eq.
  rewrite search_chomp, ci_suffix_iff.
  - split.
    + intros (pre & m & E & _ & Hm). apply matches_lit_ci in Hm. eauto.
    + intros (pre & m & E & Hm). exists pre, m. repeat split; auto.
      * discriminate.
      * now apply matches_lit_ci.
  - intros m Hm%matches_lit_ci. now apply (lit_ci_free p).
Qed.

Lemma matches_docx (m : string) :
  matches (Cat (lit true ".doc") (Opt (chr true "x"))) m
  <-> lower m = ".doc" \/ lower m = ".docx".
Proof.
  rewrite matches_cat. split.
  - intros (s1 & s2 & -> & H1%matches_lit_ci & H2).
    apply matches_opt in H2 as [H2| ->].
    + right. unfold chr in H2.
      apply matches_cls in H2 as (c & -> & Hc%Ascii.eqb_eq).
      rewrite lower_app, H1. simpl. now rewrite Hc.
    + left. now rewrite append_nil_r.
  - intros [H|H].
    + exists m, "". rewrite append_nil_r. repeat split.
      * now apply matches_lit_ci.
      * apply matches_opt. now right.
    + change ".docx" with (".doc" ++ "x")%string in H.
      apply lower_split in H as (s1 & s2 & -> & H1 & H2).
      exists s1, s2. repeat split.
      * now apply matches_lit_ci.
      * apply matches_opt. left. destruct s2 as [|c [|]]; try discriminate.
        injection H2 as Hc. unfold chr. constructor. now apply Ascii.eqb_eq.
Qed.

Lemma search_docx (t : string) :
  re_search (mkPattern false (Cat (lit true ".doc") (Opt (chr true "x"))) true) t
  = ci_suffix ".doc" (chomp t) || ci_suffix ".docx" (chomp t).
Proof.
  apply eq_true_iff_eq.
  rewrite orb_true_iff, !ci_suffix_iff, search_chomp.
  - split.
    + intros (pre & m & E & _ & [H|H]%matches_docx); [left | right]; eauto.
    + intros [(pre & m & E & H)|(pre & m & E & H)]; exists pre, m;
        (repeat split; [assumption | discriminate |]);
        apply matches_docx; [now left | now right].
  - intros m [H|H]%matches_docx.
    + now apply (lit_ci_free ".doc").
    + now apply (lit_ci_free ".docx").
Qed.

Lemma drop_app_length (s1 s2 : string) :
  drop (String.length s1) (s1 ++ s2) = s2.
Proof. induction s1; simpl; auto. Qed.

Lemma search_document (t : string) :
  re_search (mkPattern true (Cat (lit true "Document") (Star (Cls is_digit))) true) t
  = ci_prefix "Document" (chomp t) && all_digits (drop 8 (chomp t)).
Proof.
  apply eq_true_iff_eq. rewrite andb_true_iff, ci_prefix_iff, search_chomp.
  - split.
    + intros (pre & m & E & Hb & Hm). rewrite (Hb eq_refl) in E. simpl in E.
      apply matches_cat in Hm as (s1 & ds & -> & H1%matches_lit_ci
                                  & H2%matches_star_cls).
      rewrite E. split; [eauto|].
      replace 8%nat with (String.length s1)
        by (rewrite <- lower_length, H1; reflexivity).
      now rewrite drop_app_length.
    + intros [(m & r & E & Hm) Hd]. exists "", (chomp t).
      repeat split. rewrite E in *.
      replace 8%nat with (String.length m) in Hd
        by (rewrite <- lower_length, Hm; reflexivity).
      rewrite drop_app_length in Hd.
      constructor; [now apply matches_lit_ci | now apply matches_star_cls].
  - intros m (s1 & ds & -> & H1%matches_lit_ci & H2%matches_star_cls)%matches_cat.
    destruct (lit_ci_free "Document" s1) as [Hne Hf];
      [discriminate | reflexivity | exact H1 |].
    split.
    + destruct s1; [congruence | discriminate].
    + rewrite newline_free_app, Hf. simpl.
      clear -H2. induction ds as [|c ds IH]; [reflexivity|].
      simpl in *. apply andb_prop in H2 as [Hc Hds].
      unfold newline_free in *. simpl. rewrite IH by assumption.
      destruct (Ascii.eqb_spec c "010") as [->|]; [discriminate | reflexivity].
Qed.

(** A title that is not empty is generic exactly when one of the
    patterns finds a match. *)
Lemma is_generic_title_patterns (t : string) :
  is_generic_title (Some t) = String.eqb t "" || generic_by_pattern t.
Proof.
  destruct t as [|c t]; [reflexivity|].
  change (is_generic_title (Some (String c t)))
    with (existsb (fun pat => re_search pat (String c t)) generic_patterns).
  unfold generic_patterns, generic_by_pattern. cbn [existsb].
  rewrite !search_ci_prefix, search_document, search_docx.
  rewrite (search_ci_suffix ".pdf") by (discriminate || reflexivity).
  cbn [String.eqb orb]. rewrite orb_false_r, !orb_assoc. reflexivity.
Qed.

End GenericTitle.

(* ================================================================== *)
(** * The title resolver *)

Section TitleResolver.
Local Open Scope float_scope.

Lemma get_document_title_branches (pdf_doc : PdfDoc) :
  get_document_title pdf_doc
  = if is_generic_title (metadata_title pdf_doc)
    then first_page_title pdf_doc
    else match metadata_title pdf_doc with
         | Some t => Ok (strip t)
         | None => Raise AttributeError
         end.
Proof.
  unfold get_document_title, first_page_title.
  destruct (is_generic_title (metadata_title pdf_doc)); simpl; [|reflexivity].
  destruct (pages pdf_doc) as [|p ps]; [reflexivity|].
  destruct (title_candidates p); reflexivity.
Qed.

(** ** The order of the candidates *)







Lemma title_candidates_In (p : Page) (c : float * float * string) :
  In c (title_candidates p)
  <-> exists span,
        In span (page_spans p) /\ is_candidate span = true
        /\ c = (span_size span, - bbox_top span,
                clean_heading_text (span_text span)).
Proof.
  unfold title_candidates, is_candidate. rewrite in_flat_map. split.
  - intros (span & Hin & Hc). exists span.
    destruct (3 <? String.length (clean_heading_text (span_text span)))%nat;
      [|destruct Hc].
    destruct Hc as [<-|[]]. auto.
  - intros (span & Hin & Hc & ->). exists span. split; [exact Hin|].
    rewrite Hc. now left.
Qed.

Lemma title_candidates_nil (p : Page) :
  title_candidates p = []
  <-> forall span, In span (page_spans p) -> is_candidate span = false.
Proof.
  split.
  - intros E span Hin. apply not_true_iff_false. intros Hc.
    assert (H : In (span_size span, - bbox_top span,
                    clean_heading_text (span_text span)) (title_candidates p))
      by (apply title_candidates_In; eauto).
    rewrite E in H. destruct H.
  - intros H. destruct (title_candidates p) as [|c cs] eqn:E; [reflexivity|].
    assert (Hin : In c (title_candidates p)) by (rewrite E; now left).
    apply title_candidates_In in Hin as (span & Hin & Hc & _).
    rewrite H in Hc by assumption. discriminate.
Qed.

End TitleResolver.

Section TitleProperties.
Local Open Scope float_scope.



(** C7, as stated, fails: the title "Document1 notes" has the prefix
    "Document" followed by a digit, yet it is not generic for the
    program, which returns it instead of the text of page one. *)
Lemma document_prefix_title_is_kept :
  generic_as_stated "Document1 notes" = true
  /\ is_generic_title (Some "Document1 notes") = false
  /\ get_document_title notes_doc = Ok "Document1 notes"
  /\ first_page_title notes_doc = Ok "Annual Report".
Proof. repeat split; vm_compute; reflexivity. Qed.

(** C7, amended.  The resolver returns the metadata title, trimmed,
    exactly when it is present, not empty, and matches none of: the
    prefix "Microsoft Word"; being, as a whole, "Document" followed by
    digits or by nothing; the prefix "Untitled"; the suffixes ".doc",
    ".docx", ".pdf" -- all up to case, a final newline not counting for
    the second and the last three.  In every other case it returns what
    the fallback reads off page one.  "Microsoft Word - report.docx" is
    generic. *)
Theorem title_from_metadata_iff (pdf_doc : PdfDoc) :
  (is_generic_title (metadata_title pdf_doc) = false
   <-> exists t, metadata_title pdf_doc = Some t /\ t <> ""
                 /\ generic_by_pattern t = false)
  /\ (forall t, metadata_title pdf_doc = Some t -> t <> "" ->
                generic_by_pattern t = false ->
                get_document_title pdf_doc = Ok (strip t))
  /\ (is_generic_title (metadata_title pdf_doc) = true ->
      get_document_title pdf_doc = first_page_title pdf_doc)
  /\ is_generic_title (Some "Microsoft Word - report.docx") = true.
Proof.
  assert (K : forall t, t <> "" -> generic_by_pattern t = false ->
                        is_generic_title (Some t) = false).
  { intros t Hne Hg. rewrite is_generic_title_patterns, Hg.
    apply String.eqb_neq in Hne. now rewrite Hne. }
  split; [|split; [|split]].
  - split.
    + destruct (metadata_title pdf_doc) as [t|]; [|discriminate].
      rewrite is_generic_title_patterns. intros [H1 H2]%orb_false_elim.
      exists t. apply String.eqb_neq in H1. auto.
    + intros (t & -> & Hne & Hg). now apply K.
  - intros t E Hne Hg. rewrite get_document_title_branches, E.
    now rewrite (K t Hne Hg).
  - intros Hg. now rewrite get_document_title_branches, Hg.
  - vm_compute. reflexivity.
Qed.

End TitleProperties.

(* ================================================================== *)
(** * The whole pipeline *)

Section WholePipeline.

Lemma flat_map_nil_inv {A B} (f : A -> list B) (l : list A) :
  flat_map f l = [] -> forall x, In x l -> f x = [].
Proof.
  induction l as [|a l IH]; simpl; intros E x; [tauto|].
  apply app_eq_nil in E as [Ea El]. intros [<-|Hin]; auto.
Qed.

Lemma filter_headings_nil levels : filter_headings levels [] = [].
Proof. destruct levels; reflexivity. Qed.

Lemma extract_headings_empty set_iter (pdf_doc : PdfDoc) :
  collect_raw_lines pdf_doc = [] ->
  extract_headings_from_pdf set_iter pdf_doc = Ok [].
Proof.
  intros E. unfold extract_headings_from_pdf. rewrite E. simpl.
  now rewrite filter_headings_nil.
Qed.

Lemma no_line_no_candidate (pdf_doc : PdfDoc) (p : Page) (ps : list Page) :
  pages pdf_doc = p :: ps -> collect_raw_lines pdf_doc = [] ->
  title_candidates p = [].
Proof.
  intros Hp E. unfold collect_raw_lines in E. rewrite Hp in E.
  simpl in E. apply app_eq_nil in E as [E _].
  apply title_candidates_nil. intros span Hin. unfold is_candidate.
  pose proof (flat_map_nil_inv _ _ E span Hin) as H. simpl in H.
  destruct (String.length (clean_heading_text (span_text span)) <? 3)%nat eqn:L;
    [|discriminate].
  apply Nat.ltb_lt in L. apply Nat.ltb_ge. lia.
Qed.

(** C8.  A document with at least one page of which no fragment
    survives collection gives an outline with no heading; its title is
    the trimmed metadata title when that is not generic and the sentinel
    "Untitled Document" otherwise; no exception is raised. *)
Theorem empty_document_outline set_iter (pdf_doc : PdfDoc) :
  collect_raw_lines pdf_doc = [] -> pages pdf_doc <> [] ->
  exists t,
    process_pdf set_iter pdf_doc = Ok {| title := t; outline := [] |}
    /\ ((is_generic_title (metadata_title pdf_doc) = true
         /\ t = "Untitled Document")
        \/ (is_generic_title (metadata_title pdf_doc) = false
            /\ exists m, metadata_title pdf_doc = Some m /\ t = strip m)).
Proof.
  intros E Hp. unfold process_pdf.
  rewrite (extract_headings_empty _ _ E), get_document_title_branches.
  destruct (is_generic_title (metadata_title pdf_doc)) eqn:G.
  - exists "Untitled Document". split; [|now left].
    unfold first_page_title. destruct (pages pdf_doc) as [|p ps] eqn:P;
      [congruence|].
    now rewrite (no_line_no_candidate _ _ _ P E).
  - destruct (metadata_title pdf_doc) as [m|]; [|discriminate].
    exists (strip m). split; [reflexivity|]. right. eauto.
Qed.

(** [empty_document_outline] on a page whose only span is too short. *)
Lemma empty_document_outline_blank :
  exists t,
    process_pdf (fun s => s) blank_doc = Ok {| title := t; outline := [] |}
    /\ ((is_generic_title (metadata_title blank_doc) = true
         /\ t = "Untitled Document")
        \/ (is_generic_title (metadata_title blank_doc) = false
            /\ exists m, metadata_title blank_doc = Some m /\ t = strip m)).
Proof.
  apply (empty_document_outline (fun s => s) blank_doc);
    [reflexivity | discriminate].
Defined.

Lemma sort_desc_not_nil {A} (lt : A -> A -> bool) (l : list A) :
  l <> [] -> sort_desc lt l <> [].
Proof.
  intros Hne E. pose proof (sort_desc_perm lt l) as P. rewrite E in P.
  apply Permutation_nil in P. congruence.
Qed.

(** The resolver raises nothing on a document with a page. *)
Lemma get_document_title_total (pdf_doc : PdfDoc) :
  pages pdf_doc <> [] -> exists t, get_document_title pdf_doc = Ok t.
Proof.
  intros Hp. rewrite get_document_title_branches.
  destruct (is_generic_title (metadata_title pdf_doc)) eqn:G.
  - unfold first_page_title. destruct (pages pdf_doc) as [|p ps]; [congruence|].
    destruct (title_candidates p) as [|c cs]; [eauto|].
    destruct (sort_desc triple_lt (c :: cs)) as [|[[s n] t] tl] eqn:E; [|eauto].
    now apply sort_desc_not_nil in E.
  - destruct (metadata_title pdf_doc); [eauto | discriminate].
Qed.

Lemma merged_sizes_numbers (ls : list Line) :
  numbers (map size ls) ->
  exists ms, merge_multiline_headings ls = Ok ms /\ numbers (map size ms).
Proof.
  intros Hn. destruct (merge_blocks ls) as (bs & Hm & Hc & _ & _).
  exists (map flush_block bs). split; [exact Hm|].
  unfold numbers in *. rewrite Forall_forall in *. intros x Hx.
  apply in_map_iff in Hx as (l & <- & Hl).
  apply in_map_iff in Hl as (b & <- & Hb).
  apply Hn. apply in_map_iff. exists (fst b). split; [reflexivity|].
  rewrite <- Hc. apply in_flat_map. exists b. split; [exact Hb | now left].
Qed.

(** C9.  Two runs on the same document give the same result, whatever
    the order in which each iterates the set of sizes; on a document
    with a page the result is an outline, not an exception. *)
Theorem pipeline_deterministic iter1 iter2 (pdf_doc : PdfDoc) :
  iterates iter1 -> iterates iter2 ->
  numbers (map size (collect_raw_lines pdf_doc)) ->
  process_pdf iter1 pdf_doc = process_pdf iter2 pdf_doc
  /\ (pages pdf_doc <> [] -> exists o, process_pdf iter1 pdf_doc = Ok o).
Proof.
  intros H1 H2 Hn.
  destruct (merged_sizes_numbers _ Hn) as (ms & Hm & Hnm).
  assert (E : forall set_iter, iterates set_iter ->
              extract_headings_from_pdf set_iter pdf_doc
              = Ok (filter_headings
                      (combine (firstn 3 (sort_desc PrimFloat.ltb
                                            (set_of (map size ms))))
                               ["H1"; "H2"; "H3"]%string) ms)).
  { intros set_iter HI. unfold extract_headings_from_pdf. rewrite Hm.
    simpl bind. now destruct (group_font_sizes_top _ _ HI Hnm) as [-> _]. }
  unfold process_pdf. rewrite (E _ H1), (E _ H2). split; [reflexivity|].
  intros Hp. destruct (get_document_title_total _ Hp) as (t & ->).
  simpl. eauto.
Qed.

(** [pipeline_deterministic] on the scenario of the specification, the
    set iterated forwards in one run and backwards in the other. *)
Lemma pipeline_deterministic_plan :
  process_pdf (fun s => s) plan_doc = process_pdf (@rev float) plan_doc
  /\ (pages plan_doc <> [] ->
      exists o, process_pdf (fun s => s) plan_doc = Ok o).
Proof.
  apply (pipeline_deterministic (fun s => s) (@rev float) plan_doc).
  - intros s. apply Permutation_refl.
  - intros s. apply Permutation_sym, Permutation_rev.
  - repeat constructor.
Defined.

(** The scenario of the specification, end to end. *)
Example plan_doc_outline :
  process_pdf (fun s => s) plan_doc
  = Ok {| title := "Project Plan";
          outline := [ {| h_level := "H1"; h_text := "Project Plan";
                          h_page := 1 |};
                       {| h_level := "H2"; h_text := "Timeline";
                          h_page := 2 |} ] |}.
Proof. vm_compute. reflexivity. Qed.

End WholePipeline.

(* ================================================================== *)
(** * More on the text helpers *)

Section CleanText.

Lemma well_spaced_collapse (s : string) :
  forall b, well_spaced b (collapse_from b s).
Proof.
  induction s as [|c s IH]; intros b; simpl; [exact I|].
  destruct (is_space c) eqn:E.
  - destruct b; [apply IH|]. simpl. auto.
  - simpl. rewrite E. apply IH.
Qed.

Lemma well_spaced_rstrip (p : ascii -> bool) (s : string) :
  forall b, well_spaced b s -> well_spaced b (rstrip_by p s).
Proof.
  induction s as [|c s IH]; intros b H; simpl; [exact I|].
  simpl in H. destruct (rstrip_by p s) as [|a r] eqn:R.
  - destruct (p c); simpl; [exact I|].
    destruct (is_space c); [|exact I]. destruct H as (? & ? & _). auto.
  - simpl well_spaced at 1. destruct (is_space c).
    + destruct H as (Hc & Hb & Hs).
      split; [exact Hc|]. split; [exact Hb|]. exact (IH true Hs).
    + exact (IH false H).
Qed.

Lemma well_spaced_fixed (s : string) :
  forall b, well_spaced b s -> collapse_from b s = s.
Proof.
  induction s as [|c s IH]; intros b H; simpl in *; [reflexivity|].
  destruct (is_space c).
  - destruct H as (-> & -> & Hs). now rewrite IH.
  - now rewrite IH.
Qed.

Lemma clean_heading_text_well_spaced (s : string) :
  well_spaced false (clean_heading_text s).
Proof.
  unfold clean_heading_text. apply well_spaced_rstrip, well_spaced_collapse.
Qed.

Lemma rstrip_by_fixed (p : ascii -> bool) (s : string) :
  rstrip_by p (rstrip_by p s) = rstrip_by p s.
Proof. now apply rstrip_rstrip. Qed.

(** X1.  Cleaning a cleaned text changes nothing. *)
Theorem clean_heading_text_idempotent (s : string) :
  clean_heading_text (clean_heading_text s) = clean_heading_text s.
Proof.
  pose proof (clean_heading_text_trimmed s) as T.
  pose proof (clean_heading_text_well_spaced s) as W.
  unfold clean_heading_text at 1.
  rewrite (trimmed_strip _ T). unfold collapse_spaces.
  rewrite (well_spaced_fixed _ _ W).
  unfold clean_heading_text. apply rstrip_by_fixed.
Qed.

Lemma rstrip_by_last (p : ascii -> bool) (s pre : string) (c : ascii) :
  rstrip_by p s = (pre ++ String c "")%string -> p c = false.
Proof.
  revert pre. induction s as [|a s IH]; intros pre E; simpl in E.
  - destruct pre; discriminate.
  - destruct (rstrip_by p s) as [|b r] eqn:R.
    + destruct (p a) eqn:Pa; [destruct pre; discriminate|].
      destruct pre as [|x pre]; simpl in E.
      * now injection E as <-.
      * injection E as _ E. destruct pre; discriminate.
    + destruct pre as [|x pre]; simpl in E; [discriminate|].
      injection E as _ E. now apply (IH pre).
Qed.

Lemma well_spaced_at (s : string) :
  forall b pre c post,
    well_spaced b s -> s = (pre ++ String c post)%string -> is_space c = true ->
    c = " "%char
    /\ match post with
       | EmptyString => True
       | String c' _ => is_space c' = false
       end.
Proof.
  induction s as [|a s IH]; intros b pre c post W E Hc.
  - destruct pre; discriminate.
  - destruct pre as [|x pre]; simpl in E; injection E as -> ->.
    + simpl in W. rewrite Hc in W. destruct W as (-> & _ & W).
      split; [reflexivity|]. destruct post as [|c' post]; [exact I|].
      simpl in W. destruct (is_space c'); [|reflexivity].
      destruct W as (_ & W & _). discriminate.
    + simpl in W. destruct (is_space x).
      * destruct W as (_ & _ & W). eapply IH; eauto.
      * eapply IH; eauto.
Qed.

Lemma length_lstrip_by (p : ascii -> bool) (s : string) :
  (String.length (lstrip_by p s) <= String.length s)%nat.
Proof. induction s as [|c s IH]; simpl; [lia|]. destruct (p c); simpl; lia. Qed.

Lemma length_rstrip_by (p : ascii -> bool) (s : string) :
  (String.length (rstrip_by p s) <= String.length s)%nat.
Proof.
  induction s as [|c s IH]; simpl; [lia|].
  destruct (rstrip_by p s); [destruct (p c)|]; simpl in *; lia.
Qed.

Lemma length_collapse_from (s : string) :
  forall b, (String.length (collapse_from b s) <= String.length s)%nat.
Proof.
  induction s as [|c s IH]; intros b; simpl; [lia|].
  destruct (is_space c); [destruct b|]; simpl;
    pose proof (IH true); pose proof (IH false); lia.
Qed.

(** X2.  A cleaned text does not start with white space, does not end
    with white space, a dash or a colon, holds no white character but the
    plain space and no two spaces in a row, and is not longer than the
    text it was made of. *)
Theorem clean_heading_text_shape (s : string) :
  let t := clean_heading_text s in
  (forall c rest, t = String c rest -> is_space c = false)
  /\ (forall pre c, t = (pre ++ String c "")%string ->
        is_space c = false /\ c <> "-"%char /\ c <> ":"%char)
  /\ (forall pre c post,
        t = (pre ++ String c post)%string -> is_space c = true ->
        c = " "%char
        /\ match post with
           | EmptyString => True
           | String c' _ => is_space c' = false
           end)
  /\ (String.length t <= String.length s)%nat.
Proof.
  cbv zeta. split; [|split; [|split]].
  - intros c rest E. destruct (clean_heading_text_trimmed s) as [Hl _].
    rewrite E in Hl. simpl in Hl. destruct (is_space c) eqn:Ec; [|reflexivity].
    exfalso.
    pose proof (length_lstrip_by is_space rest) as L. rewrite Hl in L. simpl in L. lia.
  - intros pre c E. unfold clean_heading_text in E.
    apply rstrip_by_last in E. unfold is_trailer in E.
    apply orb_false_elim in E as [E Hcolon].
    apply orb_false_elim in E as [Hs Hdash].
    repeat split; [exact Hs | |]; intros ->; discriminate.
  - intros pre c post E Hc.
    eapply well_spaced_at; [apply clean_heading_text_well_spaced | exact E | exact Hc].
  - unfold clean_heading_text, strip, collapse_spaces.
    eapply Nat.le_trans; [apply length_rstrip_by|].
    eapply Nat.le_trans; [apply length_collapse_from|].
    eapply Nat.le_trans; [apply length_rstrip_by|].
    apply length_lstrip_by.
Qed.

(** X3.  [is_number_only] holds exactly of the texts that, white space at
    both ends apart, are one or more digits with at most one dot after
    them. *)
Theorem is_number_only_iff (s : string) :
  is_number_only s = true
  <-> exists ds, ds <> "" /\ all_digits ds = true
                 /\ (strip s = ds \/ strip s = (ds ++ ".")%string).
Proof.
  unfold is_number_only. rewrite number_pattern. apply number_with_dot_spec.
Qed.

End CleanText.

(* ================================================================== *)
(** * More on generic titles *)

Section GenericTitleCase.

Ltac each_char c :=
  destruct c as [[] [] [] [] [] [] [] []]; vm_compute; try reflexivity;
  try discriminate; auto.

Lemma lower_char_idempotent (a : ascii) : lower_char (lower_char a) = lower_char a.
Proof. each_char a. Qed.

Lemma lower_char_newline (a : ascii) :
  Ascii.eqb (lower_char a) "010" = Ascii.eqb a "010".
Proof. each_char a. Qed.

Lemma is_digit_lower_char (a : ascii) : is_digit (lower_char a) = is_digit a.
Proof. each_char a. Qed.

Lemma is_space_lower_char (a : ascii) : is_space a = true -> lower_char a = a.
Proof. each_char a. Qed.

Lemma lower_idempotent (s : string) : lower (lower s) = lower s.
Proof.
  induction s as [|a s IH]; simpl; [reflexivity|].
  now rewrite lower_char_idempotent, IH.
Qed.

Lemma lower_drop_final_newline (s : string) :
  lower (chomp s) = chomp (lower s).
Proof.
  unfold chomp. induction s as [|a s IH]; [reflexivity|].
  cbn [drop_final lower]. destruct s as [|b s].
  - cbn [lower]. rewrite lower_char_newline.
    destruct (Ascii.eqb a "010"); reflexivity.
  - cbn [lower] in *. cbn [lower]. now rewrite <- IH.
Qed.

Lemma lower_drop (n : nat) (s : string) : lower (drop n s) = drop n (lower s).
Proof.
  revert s. induction n as [|n IH]; intros s; [reflexivity|].
  destruct s as [|a s]; simpl; auto.
Qed.

Lemma all_digits_lower (s : string) : all_digits (lower s) = all_digits s.
Proof.
  unfold all_digits. induction s as [|a s IH]; simpl; [reflexivity|].
  now rewrite is_digit_lower_char, IH.
Qed.

Lemma generic_by_pattern_lower (t : string) :
  generic_by_pattern (lower t) = generic_by_pattern t.
Proof.
  unfold generic_by_pattern, ci_prefix, ci_suffix.
  rewrite <- !lower_drop_final_newline, !lower_idempotent.
  rewrite <- lower_drop, all_digits_lower. reflexivity.
Qed.

Lemma is_generic_title_lower (t : string) :
  is_generic_title (Some (lower t)) = is_generic_title (Some t).
Proof.
  rewrite !is_generic_title_patterns, generic_by_pattern_lower.
  destruct t; reflexivity.
Qed.

(** X4.  Whether a title is generic does not depend on the case of its
    letters. *)
Theorem is_generic_title_ignores_case (t1 t2 : string) :
  lower t1 = lower t2 ->
  is_generic_title (Some t1) = is_generic_title (Some t2).
Proof.
  intros E. rewrite <- (is_generic_title_lower t1), <- (is_generic_title_lower t2).
  now rewrite E.
Qed.

(** [is_generic_title_ignores_case] on a file name in two spellings. *)
Lemma is_generic_title_ignores_case_pdf :
  is_generic_title (Some "Annual Report.PDF")
  = is_generic_title (Some "annual report.pdf").
Proof. apply is_generic_title_ignores_case. reflexivity. Defined.

Lemma all_in_app (p : ascii -> bool) (s1 s2 : string) :
  all_in p (s1 ++ s2) = all_in p s1 && all_in p s2.
Proof.
  induction s1 as [|a s1 IH]; simpl; [reflexivity|].
  now rewrite IH, andb_assoc.
Qed.

Lemma lower_white (s : string) : all_in is_space s = true -> lower s = s.
Proof.
  induction s as [|a s IH]; simpl; [reflexivity|].
  intros [Ha Hs]%andb_prop. now rewrite (is_space_lower_char a Ha), IH.
Qed.

Lemma all_in_drop_final (p : ascii -> bool) (c : ascii) (s : string) :
  all_in p s = true -> all_in p (drop_final c s) = true.
Proof.
  induction s as [|a s IH]; [reflexivity|]. cbn [drop_final].
  intros H. destruct s as [|b s].
  - destruct (Ascii.eqb a c); [reflexivity | exact H].
  - cbn [all_in] in *. apply andb_prop in H as [Ha Hs].
    rewrite Ha. now apply IH.
Qed.

Lemma white_no_ci_prefix (p t : string) (c : ascii) :
  is_space (lower_char c) = false ->
  all_in is_space t = true -> ci_prefix (String c p) t = false.
Proof.
  intros Hc Ht. apply not_true_iff_false. intros H.
  apply ci_prefix_iff in H as (m & r & -> & Hm).
  rewrite all_in_app in Ht. apply andb_prop in Ht as [Ht _].
  rewrite <- (lower_white _ Ht), Hm in Ht. simpl in Ht.
  rewrite Hc in Ht. discriminate.
Qed.

Lemma white_no_ci_suffix (p t : string) (c : ascii) :
  is_space (lower_char c) = false ->
  all_in is_space t = true -> ci_suffix (String c p) t = false.
Proof.
  intros Hc Ht. apply not_true_iff_false. intros H.
  apply ci_suffix_iff in H as (pre & m & -> & Hm).
  rewrite all_in_app in Ht. apply andb_prop in Ht as [_ Ht].
  rewrite <- (lower_white _ Ht), Hm in Ht. simpl in Ht.
  rewrite Hc in Ht. discriminate.
Qed.

Lemma lstrip_white (t : string) :
  all_in is_space t = true -> lstrip_by is_space t = "".
Proof.
  induction t as [|a t IH]; simpl; [reflexivity|].
  intros [Ha Ht]%andb_prop. rewrite Ha. now apply IH.
Qed.

(** X5.  A metadata title that is not empty but all white space is not
    generic: it is returned, trimmed to the empty string, and page one is
    not looked at. *)
Theorem white_title_is_returned_empty (t : string) (ps : list Page) :
  t <> "" -> all_in is_space t = true ->
  is_generic_title (Some t) = false
  /\ get_document_title (mkPdfDoc (Some t) ps) = Ok "".
Proof.
  intros Hne Hw.
  assert (G : is_generic_title (Some t) = false).
  { rewrite is_generic_title_patterns. apply String.eqb_neq in Hne. rewrite Hne.
    pose proof (all_in_drop_final is_space "010" t Hw) as Hc. fold (chomp t) in Hc.
    unfold generic_by_pattern.
    rewrite !(white_no_ci_prefix _ t) by (assumption || reflexivity).
    rewrite (white_no_ci_prefix _ (chomp t)) by (assumption || reflexivity).
    rewrite !(white_no_ci_suffix _ (chomp t)) by (assumption || reflexivity).
    reflexivity. }
  split; [exact G|].
  rewrite get_document_title_branches. simpl metadata_title. rewrite G.
  unfold strip. now rewrite (lstrip_white t Hw).
Qed.

(** [white_title_is_returned_empty] on a title of two spaces. *)
Lemma white_title_two_spaces :
  is_generic_title (Some "  ") = false
  /\ get_document_title (mkPdfDoc (Some "  ") []) = Ok "".
Proof.
  apply white_title_is_returned_empty; [discriminate | reflexivity].
Defined.

End GenericTitleCase.

(* ================================================================== *)
(** * More on the multiline merger *)

Section MergerComposition.

Lemma merge_unfold (x : Line) (rest : list Line) :
  merge_multiline_headings (x :: rest)
  = st <- merge_loop (mkMergeState [] [x] (Some x)) rest ;; Ok (merge_finish st).
Proof.
  unfold merge_multiline_headings. cbn [merge_loop].
  change (merge_step (mkMergeState [] [] None) x)
    with (Ok (mkMergeState [] [x] (Some x))).
  cbn [bind]. destruct (merge_loop _ rest) as [st|e]; [|reflexivity].
  unfold merge_finish. simpl. destruct (buffer st); reflexivity.
Qed.

Lemma merge_loop_app (l1 l2 : list Line) :
  forall st,
    merge_loop st (l1 ++ l2) = st' <- merge_loop st l1 ;; merge_loop st' l2.
Proof.
  induction l1 as [|x l1 IH]; intros st; [reflexivity|].
  simpl. destruct (merge_step st x) as [st'|e]; simpl; [apply IH | reflexivity].
Qed.

Lemma merge_step_prefix (m0 m buf : list Line) (lst : option Line) (x : Line) :
  merge_step (mkMergeState (m0 ++ m) buf lst) x
  = st <- merge_step (mkMergeState m buf lst) x ;;
    Ok (mkMergeState (m0 ++ merged st) (buffer st) (last st)).
Proof.
  unfold merge_step. cbn [buffer last merged].
  destruct buf as [|b0 buf]; [reflexivity|].
  destruct lst as [l|]; [|reflexivity].
  destruct (close_to x l); cbn [bind buffer last merged]; [reflexivity|].
  now rewrite <- app_assoc.
Qed.

(** Lines merged before the loop starts are only added to. *)
Lemma merge_loop_prefix (m0 : list Line) (ls : list Line) :
  forall m buf lst,
    merge_loop (mkMergeState (m0 ++ m) buf lst) ls
    = st <- merge_loop (mkMergeState m buf lst) ls ;;
      Ok (mkMergeState (m0 ++ merged st) (buffer st) (last st)).
Proof.
  induction ls as [|x ls IH]; intros m buf lst; [reflexivity|].
  cbn [merge_loop]. rewrite merge_step_prefix.
  destruct (merge_step (mkMergeState m buf lst) x) as [[m' buf' lst']|e];
    cbn [bind buffer last merged]; [apply IH | reflexivity].
Qed.

Lemma last_app_cons (t rest : list Line) (x d : Line) :
  List.last (t ++ x :: rest) d = List.last rest x.
Proof.
  induction t as [|a t IH]; [apply last_cons_default|].
  change ((a :: t) ++ x :: rest) with (a :: (t ++ x :: rest)).
  destruct (t ++ x :: rest) eqn:E; [destruct t; discriminate|].
  rewrite <- IH. reflexivity.
Qed.

(** With a buffer open the loop never fails, and it ends with a buffer
    open whose last line is the last line read. *)
Lemma merge_loop_last (rest : list Line) :
  forall m h t,
  exists m' h' t',
    merge_loop (mkMergeState m (h :: t) (Some (List.last t h))) rest
    = Ok (mkMergeState m' (h' :: t') (Some (List.last t' h')))
    /\ List.last t' h' = List.last (t ++ rest) h.
Proof.
  induction rest as [|x rest IH]; intros m h t.
  - exists m, h, t. now rewrite app_nil_r.
  - change (merge_loop ?st (x :: rest))
      with (st' <- merge_step st x ;; merge_loop st' rest).
    rewrite merge_step_open. destruct (close_to x (List.last t h)); cbn [bind].
    + destruct (IH m h (t ++ [x])) as (m' & h' & t' & E & L).
      rewrite last_snoc in E. exists m', h', t'. split; [exact E|].
      rewrite L. now rewrite <- app_assoc.
    + destruct (IH (m ++ [flush h (h :: t)]) x []) as (m' & h' & t' & E & L).
      exists m', h', t'. split; [exact E|]. rewrite L. simpl.
      now rewrite last_app_cons.
Qed.

Lemma flush_single (a : Line) : flush a [a] = a.
Proof. destruct a. unfold flush. simpl. now rewrite orb_false_r. Qed.

Lemma merge_single (a : Line) : merge_multiline_headings [a] = Ok [a].
Proof. unfold merge_multiline_headings. simpl. now rewrite flush_single. Qed.

Lemma merge_break_app (l1 l2 : list Line) (a b : Line) :
  close_to b a = false ->
  merge_multiline_headings (l1 ++ a :: b :: l2)
  = ms1 <- merge_multiline_headings (l1 ++ [a]) ;;
    ms2 <- merge_multiline_headings (b :: l2) ;;
    Ok (ms1 ++ ms2).
Proof.
  intros Hb.
  replace (l1 ++ a :: b :: l2) with ((l1 ++ [a]) ++ b :: l2)
    by now rewrite <- app_assoc.
  destruct (l1 ++ [a]) as [|h r] eqn:E; [destruct l1; discriminate|].
  assert (La : List.last r h = a).
  { rewrite <- (last_cons_default r h h), <- E. apply last_last. }
  change ((h :: r) ++ b :: l2) with (h :: (r ++ b :: l2)).
  rewrite !merge_unfold, merge_loop_app.
  destruct (merge_loop_last r [] h []) as (m' & h' & t' & E1 & L).
  simpl List.last in E1. rewrite E1. cbn [bind].
  simpl app in L. rewrite La in L.
  change (merge_loop ?st (b :: l2))
    with (st' <- merge_step st b ;; merge_loop st' l2).
  rewrite merge_step_open, L, Hb. cbn [bind].
  unfold merge_finish at 2. cbn [buffer merged].
  rewrite <- (app_nil_r (m' ++ [flush h' (h' :: t')])) at 1.
  rewrite merge_loop_prefix.
  destruct (merge_loop (mkMergeState [] [b] (Some b)) l2) as [[m2 b2 l2']|e];
    cbn [bind]; [|reflexivity].
  unfold merge_finish. cbn [buffer merged].
  destruct b2; [reflexivity|]. now rewrite <- app_assoc.
Qed.

(** X6.  Where a line is not close to the one before it the merger
    starts afresh: the lines up to the break and the lines after it are
    merged as if each part were the whole input.  A change of page is such
    a break. *)
Theorem merge_splits_at_break (l1 l2 : list Line) (a b : Line) :
  close_to b a = false ->
  merge_multiline_headings (l1 ++ a :: b :: l2)
  = ms1 <- merge_multiline_headings (l1 ++ [a]) ;;
    ms2 <- merge_multiline_headings (b :: l2) ;;
    Ok (ms1 ++ ms2).
Proof. apply merge_break_app. Qed.

Lemma close_to_other_page (a b : Line) : page b <> page a -> close_to b a = false.
Proof.
  intros H. unfold close_to. apply Z.eqb_neq in H. now rewrite H.
Qed.

(** [merge_splits_at_break] where the page changes. *)
Lemma merge_splits_at_page_break :
  merge_multiline_headings
    [mkLine 1 "Closing" 12 false 700; mkLine 1 "remarks" 12 false 712;
     mkLine 2 "Appendix" 12 false 712; mkLine 2 "tables" 12 false 724]
  = Ok [mkLine 1 "Closing remarks" 12 false 700;
        mkLine 2 "Appendix tables" 12 false 712].
Proof.
  etransitivity.
  - apply (merge_splits_at_break [mkLine 1 "Closing" 12 false 700]
             [mkLine 2 "tables" 12 false 724]
             (mkLine 1 "remarks" 12 false 712)
             (mkLine 2 "Appendix" 12 false 712)).
    apply close_to_other_page. discriminate.
  - reflexivity.
Defined.

(** X7.  Lines of which none is close to the one before it are returned
    as they are. *)
Theorem merge_apart_identity (ls : list Line) :
  apart ls -> merge_multiline_headings ls = Ok ls.
Proof.
  induction 1 as [|x|x x' l Hc Ha IH]; [reflexivity | apply merge_single |].
  change (x :: x' :: l) with ([] ++ x :: x' :: l) at 1.
  rewrite (merge_break_app [] l x x' Hc). simpl app.
  now rewrite merge_single, IH.
Qed.

(** [merge_apart_identity] on three lines 40 apart. *)
Lemma merge_apart_three :
  merge_multiline_headings
    [mkLine 1 "Scope" 14 true 100; mkLine 1 "Method" 14 true 140;
     mkLine 1 "Results" 14 true 180]
  = Ok [mkLine 1 "Scope" 14 true 100; mkLine 1 "Method" 14 true 140;
        mkLine 1 "Results" 14 true 180].
Proof.
  apply merge_apart_identity. repeat constructor.
Defined.

Lemma merge_loop_chain (rest : list Line) :
  forall m h t,
    chain (List.last t h :: rest) ->
    merge_loop (mkMergeState m (h :: t) (Some (List.last t h))) rest
    = Ok (mkMergeState m (h :: t ++ rest) (Some (List.last (t ++ rest) h))).
Proof.
  induction rest as [|x rest IH]; intros m h t Hc.
  - now rewrite app_nil_r.
  - change (merge_loop ?st (x :: rest))
      with (st' <- merge_step st x ;; merge_loop st' rest).
    inversion Hc as [| |? ? ? Hx Hc']; subst.
    rewrite merge_step_open, Hx. cbn [bind].
    specialize (IH m h (t ++ [x])). rewrite last_snoc in IH.
    change ((h :: t) ++ [x]) with (h :: t ++ [x]).
    rewrite (IH Hc'). now rewrite <- app_assoc.
Qed.

(** X8.  Lines of which each is close to the one before it become one
    merged line: the page, size and position of the first, bold if any is
    bold, the texts joined by spaces. *)
Theorem merge_chain_single (h : Line) (t : list Line) :
  chain (h :: t) ->
  merge_multiline_headings (h :: t)
  = Ok [ {| page := page h; text := join " " (map text (h :: t));
            size := size h; is_bold := existsb is_bold (h :: t); y := y h |} ].
Proof.
  intros Hc. rewrite merge_unfold.
  pose proof (merge_loop_chain t [] h [] Hc) as E. cbn [List.last app] in E.
  rewrite E. reflexivity.
Qed.

(** [merge_chain_single] on three runs of one heading. *)
Lemma merge_chain_three :
  merge_multiline_headings
    [mkLine 4 "Risk" 16 false 90; mkLine 4 "and" 16.05 true 90;
     mkLine 4 "mitigation" 16 false 108]
  = Ok [mkLine 4 "Risk and mitigation" 16 true 90].
Proof.
  rewrite merge_chain_single; [reflexivity|]. repeat constructor.
Defined.

(** X9.  The merger returns at most as many lines as it is given, and no
    line only when it is given none. *)
Theorem merge_count (ls : list Line) :
  exists ms,
    merge_multiline_headings ls = Ok ms
    /\ (List.length ms <= List.length ls)%nat
    /\ (ms = [] <-> ls = []).
Proof.
  destruct (merge_blocks ls) as (bs & Hm & Hc & _ & _).
  exists (map flush_block bs). split; [exact Hm|]. subst ls. split.
  - rewrite length_map. clear. induction bs as [|b bs IH]; simpl; [lia|].
    rewrite length_app. lia.
  - destruct bs; simpl; split; intros; try reflexivity; discriminate.
Qed.

End MergerComposition.

(* ================================================================== *)
(** * More on the level map *)

Section LevelMapOrder.
Local Open Scope float_scope.

Lemma dict_set_length levels k v :
  (List.length (dict_set levels k v) <= S (List.length levels))%nat.
Proof.
  induction levels as [|[k' v'] levels IH]; simpl; [lia|].
  destruct (k' =? k); simpl; lia.
Qed.

Lemma dict_set_values (P : string -> Prop) levels k v :
  P v -> Forall (fun kv => P (snd kv)) levels ->
  Forall (fun kv => P (snd kv)) (dict_set levels k v).
Proof.
  intros Hv. induction levels as [|[k' v'] levels IH]; simpl; intros H.
  - constructor; [exact Hv | constructor].
  - inversion H; subst. destruct (k' =? k); constructor; auto.
Qed.

Lemma dict_get_value (P : string -> Prop) levels k v :
  Forall (fun kv => P (snd kv)) levels -> dict_get levels k = Some v -> P v.
Proof.
  induction levels as [|[k' v'] levels IH]; simpl; intros H E; [discriminate|].
  inversion H; subst. destruct (k' =? k); [|auto].
  injection E as <-. assumption.
Qed.

Lemma enumerate_length {A} (l : list A) :
  forall start, List.length (enumerate start l) = List.length l.
Proof. induction l; intros; simpl; auto. Qed.

Lemma enumerate_In {A} (l : list A) :
  forall start n x,
    In (n, x) (enumerate start l) ->
    (start <= n < start + Z.of_nat (List.length l))%Z /\ In x l.
Proof.
  induction l as [|a l IH]; intros start n x H; simpl in H; [destruct H|].
  destruct H as [[= <- <-]|H].
  - split; [simpl List.length; lia | now left].
  - apply IH in H as [H1 H2]. split; [simpl List.length; lia | now right].
Qed.

Lemma group_font_sizes_cap set_iter (font_sizes : list float) :
  let levels := group_font_sizes set_iter font_sizes in
  (List.length levels <= 3)%nat
  /\ forall size level,
       dict_get levels size = Some level ->
       level = "H1" \/ level = "H2" \/ level = "H3".
Proof.
  cbv zeta. unfold group_font_sizes.
  set (top := firstn 3 (sort_desc PrimFloat.ltb (set_iter (set_of font_sizes)))).
  assert (Hl : (List.length (enumerate 0 top) <= 3)%nat)
    by (rewrite enumerate_length; apply firstn_le_length).
  assert (Hi : forall n x, In (n, x) (enumerate 0 top) -> (0 <= n < 3)%Z).
  { intros n x H. apply enumerate_In in H as [H _].
    pose proof (firstn_le_length 3
      (sort_desc PrimFloat.ltb (set_iter (set_of font_sizes)))). fold top in H0.
    lia. }
  set (P := fun v : string => v = "H1" \/ v = "H2" \/ v = "H3").
  assert (H : forall l d,
             (forall n x, In (n, x) l -> (0 <= n < 3)%Z) ->
             Forall (fun kv => P (snd kv)) d ->
             let d' := fold_left (fun heading_map '(idx, size) =>
                                    dict_set heading_map size (level_name idx))
                                 l d in
             (List.length d' <= List.length d + List.length l)%nat
             /\ Forall (fun kv => P (snd kv)) d').
  { induction l as [|[idx sz] l IH]; intros d Hidx Hd; cbv zeta.
    - simpl. split; [lia | exact Hd].
    - cbn [fold_left].
      destruct (IH (dict_set d sz (level_name idx))) as [L F].
      + intros n x Hin. apply (Hidx n x). now right.
      + apply dict_set_values; [|exact Hd].
        assert (0 <= idx < 3)%Z by (apply (Hidx idx sz); now left).
        assert (idx = 0 \/ idx = 1 \/ idx = 2)%Z as [->|[->| ->]] by lia;
          unfold P; vm_compute; tauto.
      + split; [|exact F]. pose proof (dict_set_length d sz (level_name idx)).
        simpl List.length. lia. }
  destruct (H (enumerate 0 top) [] Hi (Forall_nil _)) as [L F]. split.
  - simpl in L. lia.
  - intros size level E. apply (dict_get_value P _ _ _ F E).
Qed.


Lemma descending_nth (top : list float) :
  descending top ->
  forall i j a b,
    nth_error top i = Some a -> nth_error top j = Some b -> (i < j)%nat ->
    (b <? a) = true.
Proof.
  unfold descending. induction 1 as [|x l Hs IH Hx]; intros i j a b Ha Hb Hij.
  - destruct i; discriminate.
  - destruct j as [|j]; [lia|]. simpl in Hb. destruct i as [|i]; simpl in Ha.
    + injection Ha as <-. rewrite Forall_forall in Hx. apply Hx.
      eapply nth_error_In; eauto.
    + eapply IH; eauto. lia.
Qed.

(** Looking a size up in the pairs of a descending list of keys with
    names: the position of the key it equals. *)
Lemma dict_get_combine (top : list float) (names : list string) (k : float) (v : string) :
  dict_get (combine top names) k = Some v ->
  exists i t, nth_error top i = Some t /\ (t =? k) = true
              /\ nth_error names i = Some v.
Proof.
  revert names. induction top as [|a top IH]; intros names E; [discriminate|].
  destruct names as [|n names]; [discriminate|]. simpl in E.
  destruct (a =? k) eqn:Ea.
  - injection E as <-. exists 0%nat, a. auto.
  - destruct (IH _ E) as (i & t & H1 & H2 & H3). exists (S i), t. auto.
Qed.

Lemma dict_get_combine_found (top : list float) (names : list string) (k t : float) :
  (List.length top <= List.length names)%nat ->
  In t top -> (t =? k) = true ->
  exists v, dict_get (combine top names) k = Some v.
Proof.
  revert names. induction top as [|a top IH]; intros names L Hin E; [destruct Hin|].
  destruct names as [|n names]; simpl in L; [lia|]. simpl.
  destruct (a =? k) eqn:Ea; [eauto|].
  destruct Hin as [->|Hin]; [congruence|]. apply IH; auto. lia.
Qed.

(** The keys of the level map: the first three of the distinct sizes in
    descending order, all sizes of the input, and every size of the input
    equal to one of them or below all three. *)
Lemma level_map_keys set_iter (font_sizes : list float) :
  iterates set_iter -> numbers font_sizes ->
  let top := firstn 3 (sort_desc PrimFloat.ltb (set_of font_sizes)) in
  group_font_sizes set_iter font_sizes = combine top ["H1"; "H2"; "H3"]%string
  /\ descending top
  /\ (List.length top <= 3)%nat
  /\ (forall x, In x top -> In x font_sizes)
  /\ (forall s, In s font_sizes ->
        (exists t, In t top /\ (s =? t) = true)
        \/ (forall t, In t top -> (s <? t) = true)).
Proof.
  intros HI Hn top.
  destruct (group_font_sizes_top _ _ HI Hn) as [E D]. fold top in E, D.
  pose proof (sort_desc_set_iter _ _ HI Hn) as [_ DS].
  split; [exact E|]. split; [exact D|]. split; [apply firstn_le_length|]. split.
  - intros x Hx. apply set_of_incl.
    eapply Permutation_in; [apply sort_desc_perm|].
    rewrite <- (firstn_skipn 3 (sort_desc PrimFloat.ltb (set_of font_sizes))).
    apply in_or_app. now left.
  - intros s Hs.
    assert (Hnum : is_number s = true).
    { unfold numbers in Hn. rewrite Forall_forall in Hn. auto. }
    destruct (set_of_covers _ _ Hnum Hs) as (z & Hz & Esz).
    apply (Permutation_in _ (Permutation_sym (sort_desc_perm PrimFloat.ltb _)))
      in Hz.
    rewrite <- (firstn_skipn 3 (sort_desc PrimFloat.ltb (set_of font_sizes)))
      in Hz, DS.
    apply in_app_or in Hz as [Hz|Hz]; [left; eauto|]. right.
    apply descending_app in DS as [_ DS].
    intros t Ht. rewrite (eqb_ltb_l _ _ t Esz). now apply DS.
Qed.

Lemma top_sizes_not_nil (font_sizes : list float) (s : float) :
  In s font_sizes ->
  firstn 3 (sort_desc PrimFloat.ltb (set_of font_sizes)) <> [].
Proof.
  intros Hs E. destruct font_sizes as [|x l]; [destruct Hs|].
  pose proof (sort_desc_perm PrimFloat.ltb (set_of (x :: l))) as P.
  destruct (sort_desc PrimFloat.ltb (set_of (x :: l))) as [|a r];
    [|discriminate].
  apply Permutation_nil in P. discriminate.
Qed.

(** X11.  With sizes that are numbers, a larger size never has a lower
    level: of two sizes with levels the larger has the level nearer to
    "H1"; a size of the input larger than a size with a level has a level
    too; and a size of the input that none exceeds has level "H1". *)
Theorem level_map_monotone set_iter (font_sizes : list float) :
  iterates set_iter -> numbers font_sizes ->
  let levels := group_font_sizes set_iter font_sizes in
  (forall a b la lb,
      dict_get levels a = Some la -> dict_get levels b = Some lb ->
      (a <? b) = true ->
      (lb = "H1" /\ la = "H2") \/ (lb = "H1" /\ la = "H3")
      \/ (lb = "H2" /\ la = "H3"))
  /\ (forall a b la,
        dict_get levels a = Some la -> In b font_sizes -> (a <? b) = true ->
        exists lb, dict_get levels b = Some lb)
  /\ (forall s,
        In s font_sizes ->
        (forall s', In s' font_sizes -> (s <? s') = false) ->
        dict_get levels s = Some "H1"%string).
Proof.
  intros HI Hn. cbv zeta.
  destruct (level_map_keys set_iter font_sizes HI Hn) as (E & D & L & Hin & Hall).
  set (top := firstn 3 (sort_desc PrimFloat.ltb (set_of font_sizes))) in *.
  rewrite E. split; [|split].
  - intros a b la lb Ea Eb Hab.
    apply dict_get_combine in Ea as (i & ta & Hi & Hta & Hla).
    apply dict_get_combine in Eb as (j & tb & Hj & Htb & Hlb).
    assert (Hlt : (ta <? tb) = true).
    { rewrite (eqb_ltb_l _ _ tb Hta), (eqb_ltb_r _ _ a Htb). exact Hab. }
    assert (Hji : (j < i)%nat).
    { destruct (Nat.lt_trichotomy i j) as [T|[T|T]]; [| |exact T].
      - pose proof (descending_nth _ D _ _ _ _ Hi Hj T) as C.
        apply ltb_asym in C. congruence.
      - subst j. rewrite Hi in Hj. injection Hj as <-.
        rewrite ltb_irrefl in Hlt. discriminate. }
    destruct i as [|[|[|i]]], j as [|[|[|j]]]; simpl in Hla, Hlb;
      try lia; try discriminate;
      try (destruct i; discriminate); try (destruct j; discriminate);
      injection Hla as <-; injection Hlb as <-; tauto.
  - intros a b la Ea Hb Hab.
    apply dict_get_combine in Ea as (i & ta & Hi & Hta & _).
    destruct (Hall b Hb) as [(t & Ht & Ebt)|Hsmall].
    + apply (dict_get_combine_found top _ b t).
      * exact L.
      * exact Ht.
      * now rewrite eqb_sym.
    + exfalso. apply nth_error_In in Hi. apply Hsmall in Hi.
      rewrite <- (eqb_ltb_l _ _ b Hta) in Hab.
      apply ltb_asym in Hab. congruence.
  - intros s Hs Hmax.
    destruct top as [|t1 top'] eqn:Etop.
    { exfalso. apply (top_sizes_not_nil font_sizes s Hs). exact Etop. }
    assert (E1 : (t1 =? s) = true).
    { destruct (Hall s Hs) as [(t & Ht & Est)|Hsmall].
      - destruct Ht as [->|Ht]; [now rewrite eqb_sym|].
        exfalso. unfold descending in D. inversion D as [|? ? _ Hx]; subst.
        rewrite Forall_forall in Hx. apply Hx in Ht.
        rewrite <- (eqb_ltb_l _ _ t1 Est) in Ht.
        rewrite Hmax in Ht; [discriminate|]. apply Hin. now left.
      - exfalso. specialize (Hsmall t1 (or_introl eq_refl)).
        rewrite Hmax in Hsmall; [discriminate|]. apply Hin. now left. }
    simpl. now rewrite E1.
Qed.

(** [level_map_monotone] on four sizes, the set iterated backwards: the
    largest one has level "H1". *)
Lemma level_map_monotone_four :
  dict_get (group_font_sizes (@rev float) [11; 16; 22; 16; 9]) 22
  = Some "H1"%string.
Proof.
  assert (HI : iterates (@rev float))
    by (intros s; apply Permutation_sym, Permutation_rev).
  assert (Hn : numbers [11; 16; 22; 16; 9]) by (repeat constructor).
  destruct (level_map_monotone (@rev float) [11; 16; 22; 16; 9] HI Hn)
    as (_ & _ & H).
  apply H; [simpl; tauto|].
  intros s' Hs'. simpl in Hs'.
  destruct Hs' as [<-|[<-|[<-|[<-|[<-|[]]]]]]; reflexivity.
Defined.

End LevelMapOrder.

(* ================================================================== *)
(** * More on the outline *)

Section OutlineEntries.

Lemma subseq_In {A} (l1 l2 : list A) :
  subseq l1 l2 -> forall x, In x l1 -> In x l2.
Proof.
  induction 1 as [|a l1 l2 _ IH|a l1 l2 _ IH]; intros x Hx.
  - destruct Hx.
  - right. now apply IH.
  - destruct Hx as [<-|Hx]; [now left | right; now apply IH].
Qed.

Lemma choose_In {A B} (f : A -> option B) (l : list A) (b : B) :
  In b (choose f l) <-> exists x, In x l /\ f x = Some b.
Proof.
  induction l as [|a l IH]; simpl.
  - split; [tauto | intros (x & [] & _)].
  - destruct (f a) as [b'|] eqn:E; simpl; rewrite IH; split.
    + intros [<-|(x & Hx & Hf)]; eauto.
    + intros (x & [<-|Hx] & Hf); [left; congruence | eauto].
    + intros (x & Hx & Hf); eauto.
    + intros (x & [<-|Hx] & Hf); [congruence | eauto].
Qed.

Lemma heading_of_fields levels line h :
  heading_of levels line = Some h ->
  dict_get levels (size line) = Some (h_level h)
  /\ h_text h = text line /\ h_page h = page line
  /\ str_in (lower (text line)) table_headers = false
  /\ number_with_dot (text line) = false.
Proof.
  unfold heading_of. destruct (dict_get levels (size line)) as [level|];
    [|discriminate].
  destruct (str_in (lower (text line)) table_headers); [discriminate|].
  destruct (number_with_dot (text line)); [discriminate|].
  destruct (is_bold line || PrimFloat.ltb (y line) 200 || String.eqb level "H1");
    [|discriminate].
  intros [= <-]. simpl. auto.
Qed.

(** What the collector keeps of a document: lines of its pages, with
    cleaned texts of three characters or more. *)
Lemma collect_raw_lines_In (pdf_doc : PdfDoc) (l : Line) :
  In l (collect_raw_lines pdf_doc) ->
  (1 <= page l <= Z.of_nat (List.length (pages pdf_doc)))%Z
  /\ (3 <= String.length (text l))%nat
  /\ trimmed (text l).
Proof.
  unfold collect_raw_lines. intros Hin.
  apply in_flat_map in Hin as ([n p] & Hnp & Hin).
  apply enumerate_In in Hnp as [Hn _]. unfold page_lines in Hin.
  apply in_flat_map in Hin as (span & _ & Hin).
  destruct (String.length (clean_heading_text (span_text span)) <? 3)%nat eqn:E;
    [destruct Hin|].
  destruct Hin as [<-|[]]. simpl. apply Nat.ltb_ge in E.
  split; [lia|]. split; [exact E | apply clean_heading_text_trimmed].
Qed.

Lemma length_append (s1 s2 : string) :
  String.length (s1 ++ s2) = (String.length s1 + String.length s2)%nat.
Proof. induction s1; simpl; congruence. Qed.

Lemma length_join_first (sep x : string) (l : list string) :
  (String.length x <= String.length (join sep (x :: l)))%nat.
Proof.
  destruct l as [|x' l]; [simpl; lia|].
  rewrite join_cons2, length_append. lia.
Qed.

(** A merged line of a document: the page of a collected line, a trimmed
    text of three characters or more. *)
Lemma merged_line_In (pdf_doc : PdfDoc) (ms : list Line) (l : Line) :
  merge_multiline_headings (collect_raw_lines pdf_doc) = Ok ms -> In l ms ->
  (1 <= page l <= Z.of_nat (List.length (pages pdf_doc)))%Z
  /\ (3 <= String.length (text l))%nat
  /\ trimmed (text l).
Proof.
  intros Hm Hl.
  destruct (merge_blocks (collect_raw_lines pdf_doc)) as (bs & Hm' & Hc & _ & _).
  rewrite Hm in Hm'. injection Hm' as ->.
  apply in_map_iff in Hl as (b & <- & Hb).
  assert (Hall : forall x, In x (block_lines b) ->
                           In x (collect_raw_lines pdf_doc)).
  { intros x Hx. rewrite <- Hc. apply in_flat_map. eauto. }
  destruct (collect_raw_lines_In pdf_doc (fst b)) as (Hp & Hlen & _);
    [apply Hall; now left|].
  split; [exact Hp|]. split.
  - change (text (flush_block b)) with (join " " (map text (block_lines b))).
    eapply Nat.le_trans; [exact Hlen|]. apply length_join_first.
  - apply flush_block_trimmed. apply Forall_forall. intros x Hx.
    destruct (collect_raw_lines_In pdf_doc x (Hall x Hx)) as (_ & Hlx & Htx).
    split; [|exact Htx]. intros E. rewrite E in Hlx. simpl in Hlx. lia.
Qed.

(** X12.  Every entry of the outline has level "H1", "H2" or "H3", the
    number of a page of the document, and a text of three characters or
    more, trimmed, that is neither a table header nor a number. *)
Theorem outline_entries_well_formed set_iter (pdf_doc : PdfDoc) :
  exists hs,
    extract_headings_from_pdf set_iter pdf_doc = Ok hs
    /\ forall h, In h hs ->
         (h_level h = "H1" \/ h_level h = "H2" \/ h_level h = "H3")
         /\ (1 <= h_page h <= Z.of_nat (List.length (pages pdf_doc)))%Z
         /\ (3 <= String.length (h_text h))%nat
         /\ trimmed (h_text h)
         /\ is_table_header (h_text h) = false
         /\ is_number_only (h_text h) = false.
Proof.
  destruct (extract_headings_spec set_iter pdf_doc) as (ms & Hm & He).
  eexists. split; [exact He|]. intros h Hh.
  apply (subseq_In _ _ (first_by_key_subseq _)) in Hh.
  apply choose_In in Hh as (line & Hline & Hf).
  apply heading_of_fields in Hf as (Hlev & -> & -> & Htab & Hnum).
  destruct (merged_line_In pdf_doc ms line Hm Hline) as (Hp & Hlen & Htr).
  split.
  { apply (proj2 (group_font_sizes_cap set_iter (map size ms)) _ _ Hlev). }
  repeat split; try assumption; try apply Hp; try apply Htr.
  unfold is_number_only. now rewrite (trimmed_strip _ Htr), number_pattern.
Qed.

End OutlineEntries.

Section OutlineOrder.

Lemma subseq_map {A B} (f : A -> B) (l1 l2 : list A) :
  subseq l1 l2 -> subseq (map f l1) (map f l2).
Proof.
  induction 1; simpl; [apply subseq_nil | now apply subseq_skip
                       | now apply subseq_keep].
Qed.

Lemma subseq_length {A} (l1 l2 : list A) :
  subseq l1 l2 -> (List.length l1 <= List.length l2)%nat.
Proof. induction 1; simpl; lia. Qed.

Lemma subseq_app {A} (l1 l1' l2 l2' : list A) :
  subseq l1 l1' -> subseq l2 l2' -> subseq (l1 ++ l2) (l1' ++ l2').
Proof.
  induction 1; intros H2; simpl; [exact H2 | apply subseq_skip; auto
                                  | apply subseq_keep; auto].
Qed.

Lemma subseq_nil_l {A} (l : list A) : subseq [] l.
Proof. induction l; [apply subseq_nil | now apply subseq_skip]. Qed.

Lemma subseq_sorted {A} (R : A -> A -> Prop) (l1 l2 : list A) :
  subseq l1 l2 -> StronglySorted R l2 -> StronglySorted R l1.
Proof.
  induction 1 as [|a l1 l2 H IH|a l1 l2 H IH]; intros S.
  - constructor.
  - inversion S; subst. auto.
  - inversion S as [|? ? S' Ha]; subst. constructor; [auto|].
    rewrite Forall_forall in *. intros x Hx. apply Ha.
    eapply subseq_In; eauto.
Qed.

Lemma sorted_app {A} (R : A -> A -> Prop) (l1 l2 : list A) :
  StronglySorted R l1 -> StronglySorted R l2 ->
  (forall a b, In a l1 -> In b l2 -> R a b) ->
  StronglySorted R (l1 ++ l2).
Proof.
  induction 1 as [|a l1 S IH Ha]; intros S2 H; simpl; [exact S2|].
  constructor.
  - apply IH; [exact S2|]. intros; apply H; [now right | assumption].
  - apply Forall_app. split; [exact Ha|].
    apply Forall_forall. intros b Hb. apply H; [now left | exact Hb].
Qed.

Lemma page_lines_page (n : Z) (p : Page) (l : Line) :
  In l (page_lines (n, p)) -> page l = n.
Proof.
  unfold page_lines. intros Hin. apply in_flat_map in Hin as (span & _ & Hin).
  destruct (String.length (clean_heading_text (span_text span)) <? 3)%nat;
    [destruct Hin|].
  destruct Hin as [<-|[]]. reflexivity.
Qed.

Lemma constant_sorted (n : Z) (l : list Z) :
  (forall x, In x l -> x = n) -> StronglySorted Z.le l.
Proof.
  induction l as [|a l IH]; intros H; constructor.
  - apply IH. intros; apply H; now right.
  - apply Forall_forall. intros x Hx.
    rewrite (H a (or_introl eq_refl)), (H x (or_intror Hx)). lia.
Qed.

(** The collector lists the lines page after page. *)
Lemma collect_pages_sorted (ps : list Page) :
  forall start,
    StronglySorted Z.le (map page (flat_map page_lines (enumerate start ps)))
    /\ forall l, In l (flat_map page_lines (enumerate start ps)) ->
                 (start <= page l)%Z.
Proof.
  induction ps as [|p ps IH]; intros start; simpl.
  - split; [constructor | intros ? []].
  - destruct (IH (start + 1)%Z) as [S L]. split.
    + rewrite map_app. apply sorted_app; [|exact S|].
      * apply (constant_sorted start). intros x Hx.
        apply in_map_iff in Hx as (l & <- & Hl).
        now apply (page_lines_page start p).
      * intros a b Ha Hb.
        apply in_map_iff in Ha as (l & <- & Hl). apply page_lines_page in Hl.
        apply in_map_iff in Hb as (l' & <- & Hl'). apply L in Hl'. lia.
    + intros l Hl. apply in_app_or in Hl as [Hl|Hl].
      * apply page_lines_page in Hl. lia.
      * apply L in Hl. lia.
Qed.

Lemma block_firsts_subseq (bs : list block) :
  subseq (map fst bs) (flat_map block_lines bs).
Proof.
  induction bs as [|b bs IH]; simpl; [apply subseq_nil|].
  apply subseq_keep.
  change (subseq ([] ++ map fst bs) (snd b ++ flat_map block_lines bs)).
  apply subseq_app; [apply subseq_nil_l | exact IH].
Qed.

Lemma choose_pages_subseq levels (ls : list Line) :
  subseq (map h_page (choose (heading_of levels) ls)) (map page ls).
Proof.
  induction ls as [|l ls IH]; simpl; [apply subseq_nil|].
  destruct (heading_of levels l) as [h|] eqn:E.
  - apply heading_of_fields in E as (_ & _ & <- & _). simpl.
    now apply subseq_keep.
  - now apply subseq_skip.
Qed.

Lemma choose_length {A B} (f : A -> option B) (l : list A) :
  (List.length (choose f l) <= List.length l)%nat.
Proof.
  induction l as [|a l IH]; simpl; [lia|]. destruct (f a); simpl; lia.
Qed.

(** The outline with the merged lines it was made of. *)
Lemma outline_subseq set_iter (pdf_doc : PdfDoc) :
  exists bs hs,
    flat_map block_lines bs = collect_raw_lines pdf_doc
    /\ merge_multiline_headings (collect_raw_lines pdf_doc)
       = Ok (map flush_block bs)
    /\ extract_headings_from_pdf set_iter pdf_doc = Ok hs
    /\ subseq (map h_page hs) (map page (map fst bs))
    /\ (List.length hs <= List.length bs)%nat.
Proof.
  destruct (merge_blocks (collect_raw_lines pdf_doc)) as (bs & Hm & Hc & _ & _).
  destruct (extract_headings_spec set_iter pdf_doc) as (ms & Hm' & He).
  rewrite Hm in Hm'. injection Hm' as <-.
  exists bs. eexists. repeat split; try eassumption.
  - eapply subseq_trans.
    + apply subseq_map, first_by_key_subseq.
    + replace (map page (map fst bs)) with (map page (map flush_block bs))
        by (rewrite !map_map; reflexivity).
      apply choose_pages_subseq.
  - eapply Nat.le_trans; [apply subseq_length, first_by_key_subseq|].
    eapply Nat.le_trans; [apply choose_length|]. now rewrite length_map.
Qed.

(** X13.  The entries of the outline come in the order of the pages: the
    page numbers never decrease. *)
Theorem outline_pages_ascend set_iter (pdf_doc : PdfDoc) :
  exists hs,
    extract_headings_from_pdf set_iter pdf_doc = Ok hs
    /\ StronglySorted Z.le (map h_page hs).
Proof.
  destruct (outline_subseq set_iter pdf_doc) as (bs & hs & Hc & _ & He & Hs & _).
  exists hs. split; [exact He|].
  apply (subseq_sorted _ _ _ Hs).
  apply (subseq_sorted _ _ (map page (flat_map block_lines bs))).
  - apply subseq_map, block_firsts_subseq.
  - rewrite Hc. apply collect_pages_sorted.
Qed.

Lemma length_page_lines (n : Z) (p : Page) :
  (List.length (page_lines (n, p)) <= List.length (page_spans p))%nat.
Proof.
  unfold page_lines. induction (page_spans p) as [|span l IH]; simpl; [lia|].
  rewrite length_app.
  destruct (String.length (clean_heading_text (span_text span)) <? 3)%nat;
    simpl; [apply le_S | apply le_n_S]; exact IH.
Qed.

Lemma length_collect (ps : list Page) :
  forall start,
    (List.length (flat_map page_lines (enumerate start ps))
     <= List.length (flat_map page_spans ps))%nat.
Proof.
  induction ps as [|p ps IH]; intros start; cbn [flat_map enumerate];
    [apply Nat.le_refl|].
  rewrite !length_app.
  apply Nat.add_le_mono; [apply length_page_lines | apply IH].
Qed.

Lemma length_blocks (bs : list block) :
  (List.length bs <= List.length (flat_map block_lines bs))%nat.
Proof.
  induction bs as [|b bs IH]; simpl; [lia|]. rewrite length_app. lia.
Qed.

(** X14.  The outline has at most as many entries as there are merged
    lines, these are at most as many as the collected lines, and these at
    most as many as the spans of the document. *)
Theorem outline_counts set_iter (pdf_doc : PdfDoc) :
  exists ms hs,
    merge_multiline_headings (collect_raw_lines pdf_doc) = Ok ms
    /\ extract_headings_from_pdf set_iter pdf_doc = Ok hs
    /\ (List.length hs <= List.length ms)%nat
    /\ (List.length ms <= List.length (collect_raw_lines pdf_doc))%nat
    /\ (List.length (collect_raw_lines pdf_doc)
        <= List.length (flat_map page_spans (pages pdf_doc)))%nat.
Proof.
  destruct (outline_subseq set_iter pdf_doc) as (bs & hs & Hc & Hm & He & _ & Hl).
  exists (map flush_block bs), hs. rewrite length_map.
  repeat split; try assumption.
  - rewrite <- Hc. apply length_blocks.
  - apply length_collect.
Qed.

End OutlineOrder.

(* ================================================================== *)
(** * More on the title and on failures *)

Section TitleAndFailure.

Lemma strip_trimmed (s : string) : trimmed (strip s).
Proof.
  unfold strip, trimmed. split.
  - apply lstrip_head_ok, head_ok_rstrip, head_ok_lstrip.
  - apply rstrip_by_fixed.
Qed.

Lemma sort_desc_hd_In {A} (lt : A -> A -> bool) (l : list A) (x : A) (tl : list A) :
  sort_desc lt l = x :: tl -> In x l.
Proof.
  intros E. eapply Permutation_in; [apply sort_desc_perm|].
  rewrite E. now left.
Qed.

(** What the fallback returns: the sentinel when page one has no
    candidate, else the cleaned text of a candidate span. *)
Lemma first_page_title_cases (pdf_doc : PdfDoc) (p : Page) (ps : list Page) :
  pages pdf_doc = p :: ps ->
  ((forall span, In span (page_spans p) -> is_candidate span = false)
   /\ first_page_title pdf_doc = Ok "Untitled Document")
  \/ (exists span,
        In span (page_spans p) /\ is_candidate span = true
        /\ first_page_title pdf_doc = Ok (clean_heading_text (span_text span))).
Proof.
  intros Hp. unfold first_page_title. rewrite Hp.
  destruct (title_candidates p) as [|c cs] eqn:E.
  - left. split; [now apply title_candidates_nil | reflexivity].
  - right.
    destruct (sort_desc triple_lt (c :: cs)) as [|[[s n] t] tl] eqn:S.
    { now apply sort_desc_not_nil in S. }
    apply sort_desc_hd_In in S. rewrite <- E in S.
    apply title_candidates_In in S as (span & Hin & Hc & [= _ _ ->]).
    exists span. auto.
Qed.

(** X15.  The title of a document with a page has no white space at
    either end, whichever way it is found. *)
Theorem title_is_trimmed (pdf_doc : PdfDoc) :
  pages pdf_doc <> [] ->
  exists t, get_document_title pdf_doc = Ok t /\ trimmed t.
Proof.
  intros Hp. rewrite get_document_title_branches.
  destruct (is_generic_title (metadata_title pdf_doc)) eqn:G.
  - destruct (pages pdf_doc) as [|p ps] eqn:P; [congruence|].
    destruct (first_page_title_cases pdf_doc p ps P)
      as [[_ ->]|(span & _ & _ & ->)]; eexists; split; try reflexivity.
    + split; reflexivity.
    + apply clean_heading_text_trimmed.
  - destruct (metadata_title pdf_doc) as [m|]; [|discriminate].
    exists (strip m). split; [reflexivity | apply strip_trimmed].
Qed.

(** [title_is_trimmed] on a metadata title with blanks around it. *)
Lemma title_is_trimmed_padded :
  exists t,
    get_document_title
      (mkPdfDoc (Some "  Field Guide  ") [mkPage []]) = Ok t
    /\ trimmed t.
Proof. apply title_is_trimmed. discriminate. Defined.

(** X16.  When the metadata title is absent or generic, the title is the
    sentinel "Untitled Document" if no span of page one has a cleaned
    text of more than three characters, and otherwise the text, of more
    than three characters, of a line the collector keeps for page 1. *)
Theorem fallback_title_is_collected_line
    (pdf_doc : PdfDoc) (p : Page) (ps : list Page) :
  is_generic_title (metadata_title pdf_doc) = true ->
  pages pdf_doc = p :: ps ->
  ((forall span, In span (page_spans p) -> is_candidate span = false)
   /\ get_document_title pdf_doc = Ok "Untitled Document")
  \/ (exists line,
        In line (collect_raw_lines pdf_doc) /\ page line = 1%Z
        /\ (3 < String.length (text line))%nat
        /\ get_document_title pdf_doc = Ok (text line)).
Proof.
  intros G P. rewrite get_document_title_branches, G.
  destruct (first_page_title_cases pdf_doc p ps P)
    as [[Hn E]|(span & Hin & Hc & E)]; [left; auto|]. right.
  unfold is_candidate in Hc. apply Nat.ltb_lt in Hc.
  exists {| page := 1; text := clean_heading_text (span_text span);
            size := span_size span; is_bold := font_is_bold (span_font span);
            y := bbox_top span |}.
  simpl. repeat split; try assumption.
  unfold collect_raw_lines. rewrite P. cbn [enumerate flat_map].
  apply in_or_app. left. unfold page_lines. apply in_flat_map.
  exists span. split; [exact Hin|].
  destruct (String.length (clean_heading_text (span_text span)) <? 3)%nat eqn:L;
    [apply Nat.ltb_lt in L; lia | now left].
Qed.

(** [fallback_title_is_collected_line] on the cover page with two large
    spans. *)
Lemma fallback_title_cover :
  ((forall span,
       In span (page_spans (hd (mkPage []) (pages cover_doc))) ->
       is_candidate span = false)
   /\ get_document_title cover_doc = Ok "Untitled Document")
  \/ (exists line,
        In line (collect_raw_lines cover_doc) /\ page line = 1%Z
        /\ (3 < String.length (text line))%nat
        /\ get_document_title cover_doc = Ok (text line)).
Proof.
  apply (fallback_title_is_collected_line cover_doc _ []); reflexivity.
Defined.



End TitleAndFailure.

(* ================================================================== *)
(** * The batch *)

Section BatchProperties.
Variable set_iter : list float -> list float.














End BatchProperties.

